(** * tjg::Int<T, E>: an integer whose byte order is part of its type

    A shallow embedding of [Int.hpp] and the properties of its
    conversions, byte-order transformations and operators.

    Modelling choices.
    - The integral types are [bool] and the fixed-width types
      [std::int8_t] ... [std::uint64_t]; [int] is the 32-bit type, as on
      the ILP32, LP64 and LLP64 data models.  [bool] is a source and a
      destination of the built-in conversions only: the class template
      itself cannot be instantiated at [bool] ([tjg.instantiable]).
    - A value of type [T] is the mathematical integer it denotes, a [Z]
      inside [in_range T]; conversions and wrap-around are written out.
    - [std::endian] has the two enumerators [little] and [big];
      [std::endian::native] is one of them and is a parameter of the
      development (Section [Host]).
    - The template parameters [T] and [E] of [Int] are parameters of the
      record type [Int T E], so they cost nothing in the stored state,
      which is the single field [_raw]. *)

From Stdlib Require Import ZArith Lia Bool List Eqdep_dec.
From coqutil Require Import Byte Word.LittleEndianList Z.bitblast.
Import ListNotations.
Local Open Scope Z_scope.

(* ===================================================================== *)
(** ** The built-in integral types and conversions of the host language  *)
(* ===================================================================== *)

Module cpp.

(** The types accepted by [std::integral] in this model. *)
Inductive ityp : Set :=
  | bool_t
  | int8_t  | uint8_t
  | int16_t | uint16_t
  | int32_t | uint32_t
  | int64_t | uint64_t.

Definition ityp_eq_dec (a b : ityp) : {a = b} + {a <> b}.
Proof. decide equality. Defined.

Definition same_as (a b : ityp) : bool :=
  if ityp_eq_dec a b then true else false.

(** [sizeof(T)], in bytes. *)
Definition sizeof (T : ityp) : nat :=
  match T with
  | bool_t | int8_t | uint8_t => 1
  | int16_t | uint16_t => 2
  | int32_t | uint32_t => 4
  | int64_t | uint64_t => 8
  end%nat.

Definition is_signed (T : ityp) : bool :=
  match T with
  | int8_t | int16_t | int32_t | int64_t => true
  | _ => false
  end.

(** Number of bits of the object representation. *)
Definition width (T : ityp) : Z := Z.of_nat (sizeof T) * 8.

(** [std::numeric_limits<T>::min()] and [max()]. *)
Definition min_value (T : ityp) : Z :=
  if is_signed T then - 2 ^ (width T - 1) else 0.

Definition max_value (T : ityp) : Z :=
  match T with
  | bool_t => 1
  | _ => if is_signed T then 2 ^ (width T - 1) - 1 else 2 ^ width T - 1
  end.

Definition in_rangeb (T : ityp) (z : Z) : bool :=
  (min_value T <=? z) && (z <=? max_value T).

Definition in_range (T : ityp) (z : Z) : Prop :=
  min_value T <= z <= max_value T.

(** Reading an unsigned bit pattern [u] of [width T] bits as a [T]:
    the two's-complement interpretation for a signed [T]. *)
Definition reinterpret (T : ityp) (u : Z) : Z :=
  if is_signed T && (2 ^ (width T - 1) <=? u) then u - 2 ^ width T else u.

(** [static_cast<To>(z)] of an integer value [z] of any integral type:
    [conv.bool] for [bool], else [conv.integral]: the value of [To]
    congruent to [z] modulo [2 ^ width To]. *)
Definition static_cast (To : ityp) (z : Z) : Z :=
  match To with
  | bool_t => if z =? 0 then 0 else 1
  | _ =>
      if is_signed To
      then (z + 2 ^ (width To - 1)) mod 2 ^ width To - 2 ^ (width To - 1)
      else z mod 2 ^ width To
  end.

(** Integral promotion ([conv.prom]): what is narrower than [int]
    becomes [int]. *)
Definition promote (T : ityp) : ityp :=
  match T with
  | bool_t | int8_t | uint8_t | int16_t | uint16_t => int32_t
  | _ => T
  end.

(** Narrowing integral conversions of list-initialisation
    ([dcl.init.list]): the destination cannot represent every value of the
    source type.  The second form is for a source that is a constant
    expression, which only narrows when its value does not fit. *)
Definition narrowing (From To : ityp) : bool :=
  negb ((min_value To <=? min_value From) && (max_value From <=? max_value To)).

Definition narrowing_constant (From To : ityp) (c : Z) : bool :=
  narrowing From To && negb (in_rangeb To c).

(** [std::convertible_to] between integral types. *)
Definition convertible_to (From To : ityp) : bool := true.

(** Built-in unary [~] and [-] and binary [|], [&], [^] on operands of
    type [T]: the operands are promoted and the result has the promoted
    type.  Signed overflow has no defined result. *)
Definition compl (T : ityp) (a : Z) : Z :=
  static_cast (promote T) (Z.lnot a).

Definition neg (T : ityp) (a : Z) : option Z :=
  if is_signed (promote T)
  then if in_rangeb (promote T) (- a) then Some (- a) else None
  else Some (static_cast (promote T) (- a)).

(** On promoted operands in two's complement the binary bitwise
    operators are those of [Z]. *)
Definition bit_or  (a b : Z) : Z := Z.lor a b.
Definition bit_and (a b : Z) : Z := Z.land a b.
Definition bit_xor (a b : Z) : Z := Z.lxor a b.

(** The usual arithmetic conversions ([expr.arith.conv]) on two integral
    operand types: both are promoted; of two types of the same signedness
    the wider is taken; otherwise the unsigned one when it is at least as
    wide as the signed one, else the signed one, which then represents
    every value of the unsigned one. *)
Definition common_type (A B : ityp) : ityp :=
  let A' := promote A in
  let B' := promote B in
  if ityp_eq_dec A' B' then A'
  else if Bool.eqb (is_signed A') (is_signed B')
       then (if width A' <? width B' then B' else A')
       else if is_signed A'
            then (if width A' <=? width B' then B' else A')
            else (if width B' <=? width A' then A' else B').

(** The result of an arithmetic operation whose mathematical value is
    [r], in the type [C]: modulo [2 ^ width C] for an unsigned [C]; for a
    signed [C] an unrepresentable [r] is an overflow, which has no
    defined result. *)
Definition arith_result (C : ityp) (r : Z) : option Z :=
  if is_signed C
  then (if in_rangeb C r then Some r else None)
  else Some (static_cast C r).

(** Built-in binary [+], [-], [*] on operands of types [A] and [B]. *)
Definition binary (f : Z -> Z -> Z) (A B : ityp) (a b : Z) : option Z :=
  let C := common_type A B in
  arith_result C (f (static_cast C a) (static_cast C b)).

Definition add := binary Z.add.
Definition sub := binary Z.sub.
Definition mul := binary Z.mul.

(** Built-in [/] and [%]: the quotient is truncated towards zero; a zero
    divisor and an unrepresentable quotient have no defined result, for
    either operator. *)
Definition div (A B : ityp) (a b : Z) : option Z :=
  let C := common_type A B in
  if static_cast C b =? 0 then None
  else arith_result C (Z.quot (static_cast C a) (static_cast C b)).

Definition rem (A B : ityp) (a b : Z) : option Z :=
  let C := common_type A B in
  if static_cast C b =? 0 then None
  else match arith_result C (Z.quot (static_cast C a) (static_cast C b)) with
       | Some _ => Some (Z.rem (static_cast C a) (static_cast C b))
       | None => None
       end.

(** Built-in [<<] and [>>] ([expr.shift]): the result has the promoted
    type of the left operand; a negative count or one not below its width
    has no defined result.  [a << n] is congruent to [a * 2 ^ n]; [a >> n]
    is [a / 2 ^ n] rounded down. *)
Definition shl (A : ityp) (a n : Z) : option Z :=
  if (0 <=? n) && (n <? width (promote A))
  then Some (static_cast (promote A) (a * 2 ^ n))
  else None.

Definition shr (A : ityp) (a n : Z) : option Z :=
  if (0 <=? n) && (n <? width (promote A))
  then Some (Z.shiftr a n)
  else None.

End cpp.

(* ===================================================================== *)
(** ** [namespace std]: byte order and byte reversal                      *)
(* ===================================================================== *)

Module std.
Import cpp.

(** [std::endian]; [std::endian::native] is one of the two. *)
Inductive endian : Set := little | big.

Definition endian_eq_dec (a b : endian) : {a = b} + {a <> b}.
Proof. decide equality. Defined.

Definition endian_eqb (a b : endian) : bool :=
  if endian_eq_dec a b then true else false.

(** [constexpr endian operator~(endian x)], Int.hpp lines 17-22. *)
Definition operator_tilde (x : endian) : endian :=
  if endian_eqb x little then big else little.

(** The bit pattern whose [n] bytes are the [n] low-order bytes of [z]
    in reverse order. *)
Definition bswap (n : nat) (z : Z) : Z := le_combine (rev (le_split n z)).

(** [std::byteswap]: the value whose object representation is the
    reversed byte sequence of the argument's. *)
Definition byteswap (T : ityp) (z : Z) : Z :=
  reinterpret T (bswap (sizeof T) z).

End std.

(* ===================================================================== *)
(** ** [namespace tjg]: the class template [Int<T, E>]                    *)
(* ===================================================================== *)

Module tjg.
Import cpp std.

(** [template<typename To, typename From> To narrow_cast(From x)],
    lines 28-29. *)
Definition narrow_cast (To : ityp) (x : Z) : Z := static_cast To x.

(** [concept NonNarrowing<From, To>], lines 31-33: the same type, or
    convertible and accepted by list-initialisation [To{ x }]. *)
Definition NonNarrowing (From To : ityp) : bool :=
  same_as From To || (convertible_to From To && negb (narrowing From To)).

(** The state of an [Int<T, E>] is its private member [_raw]; [T] is
    [value_type] and [E] is [Endian]. *)
Record Int (T : ityp) (E : endian) : Type := mkInt { _raw : Z }.
Arguments mkInt {T E} _.
Arguments _raw {T E} _.

Definition value_type {T E} (x : Int T E) : ityp := T.
Definition Endian {T E} (x : Int T E) : endian := E.

(** The types at which the class template can be instantiated: every
    [std::integral] type but [bool], for which [operator T()] of line 104
    and [explicit operator bool()] of line 116 declare the same
    conversion function twice.  The record type [Int bool_t E] is
    inhabited all the same; what is stated about a real [Int<T, E>]
    assumes [instantiable T]. *)
Definition instantiable (T : ityp) : bool := negb (same_as T bool_t).

(** What building a call site gives: the selected function's result, or
    the reason the program is ill-formed. *)
Inductive build (A : Type) : Type :=
  | compiles (a : A)
  | deleted_function
  | narrowing_error.
Arguments compiles {A} a.
Arguments deleted_function {A}.
Arguments narrowing_error {A}.

(** The same object seen at an equal type. *)
Definition same_Int {T E T' E'} (eT : T = T') (eE : E = E') (x : Int T E) : Int T' E' :=
  match eT in _ = t, eE in _ = e return Int t e with
  | eq_refl, eq_refl => x
  end.

Section Host.

(** [std::endian::native] of the host. *)
Variable native : endian.

Section Members.
Context {T : ityp} {E : endian}.

(** [template<std::endian Rep> T _get() const], lines 45-51. *)
Definition _get (Rep : endian) (self : Int T E) : Z :=
  if endian_eqb E Rep then _raw self else byteswap T (_raw self).

(** [void _set(T x)], lines 53-58; the updated object is returned. *)
Definition _set (self : Int T E) (x : Z) : Int T E :=
  if endian_eqb E native then mkInt x else mkInt (byteswap T x).

(** [Int() = default] with [_raw = value_type{0}], lines 43 and 61. *)
Definition Int_default : Int T E := mkInt 0.

(** [Int(const Int&) = default], line 62. *)
Definition Int_copy (other : Int T E) : Int T E := other.

(** [explicit Int(T x) { _set(x); }], line 66. *)
Definition Int_from (x : Z) : Int T E := _set Int_default x.

(** Accessors, lines 84-104. *)
Definition raw (self : Int T E) : Z := _raw self.
Definition value (self : Int T E) : Z := _get native self.
Definition big (self : Int T E) : Z := _get std.big self.
Definition little (self : Int T E) : Z := _get std.little self.
Definition operator_T (self : Int T E) : Z := value self.

(** The bytes of the object in memory, lowest address first: the host
    stores [_raw] in its native order. *)
Definition object_bytes (self : Int T E) : list byte :=
  match native with
  | std.little => le_split (sizeof T) (_raw self)
  | std.big => rev (le_split (sizeof T) (_raw self))
  end.

(** The class invariant of the storage: [_raw] is a value of [T]. *)
Definition wf (self : Int T E) : Prop := in_range T (_raw self).

End Members.

Section Operators.
Context {T : ityp} {E : endian}.

(** [bool operator==(const Int&) const = default], line 64: member-wise. *)
Definition operator_eq (self rhs : Int T E) : bool := _raw self =? _raw rhs.

(** [operator<=>], lines 107-108, and the relational operators the
    language rewrites in terms of it. *)
Definition operator_spaceship (self rhs : Int T E) : comparison :=
  value self ?= value rhs.

Definition operator_lt (self rhs : Int T E) : bool :=
  match operator_spaceship self rhs with Lt => true | _ => false end.
Definition operator_le (self rhs : Int T E) : bool :=
  match operator_spaceship self rhs with Gt => false | _ => true end.
Definition operator_gt (self rhs : Int T E) : bool :=
  match operator_spaceship self rhs with Gt => true | _ => false end.
Definition operator_ge (self rhs : Int T E) : bool :=
  match operator_spaceship self rhs with Lt => false | _ => true end.

(** Unary operations, lines 111-116. *)
Definition operator_plus (self : Int T E) : Int T E := self.
Definition operator_minus (self : Int T E) : option Z := neg T (value self).
Definition operator_compl (self : Int T E) : Int T E :=
  mkInt (narrow_cast T (compl T (_raw self))).
Definition operator_not (self : Int T E) : bool := _raw self =? 0.
Definition operator_bool (self : Int T E) : bool := negb (_raw self =? 0).

(** [operator=(U x)], lines 69-70, and its deleted twin, lines 77-78:
    the constraints [NonNarrowing<U, T>] and [!NonNarrowing<U, T>] leave
    exactly one viable candidate.  The body is [_set(T{x})]. *)
Definition operator_assign (U : ityp) (self : Int T E) (x : Z) : build (Int T E) :=
  if NonNarrowing U T
  then compiles (_set self (static_cast T x))
  else deleted_function.


(** Direct-initialisation [Int<T, E>(u)] from a plain [U]: the
    constructor of line 66 is chosen and its argument converted to [T];
    the constructor has no guard against narrowing. *)
Definition paren_init (U : ityp) (u : Z) : build (Int T E) :=
  compiles (Int_from (static_cast T u)).

(** Direct-list-initialisation [Int<T, E>{c}] from an [int] constant
    expression [c]: the same constructor; the conversion of a constant
    narrows only when its value does not fit, and that is an error. *)
Definition brace_init_literal (c : Z) : build (Int T E) :=
  if narrowing_constant int32_t T c then narrowing_error
  else compiles (Int_from (static_cast T c)).

(** [operator|=], [operator&=], [operator^=] on two [Int], lines
    172-177: [_raw op= rhs._raw]. *)
Definition operator_or_assign (self rhs : Int T E) : Int T E :=
  mkInt (static_cast T (bit_or (_raw self) (_raw rhs))).
Definition operator_and_assign (self rhs : Int T E) : Int T E :=
  mkInt (static_cast T (bit_and (_raw self) (_raw rhs))).
Definition operator_xor_assign (self rhs : Int T E) : Int T E :=
  mkInt (static_cast T (bit_xor (_raw self) (_raw rhs))).

(** [operator|], [operator&], [operator^], lines 189-191:
    [Int{*this} op= rhs]. *)
Definition operator_or (self rhs : Int T E) : Int T E :=
  operator_or_assign (Int_copy self) rhs.
Definition operator_and (self rhs : Int T E) : Int T E :=
  operator_and_assign (Int_copy self) rhs.
Definition operator_xor (self rhs : Int T E) : Int T E :=
  operator_xor_assign (Int_copy self) rhs.

End Operators.

(** [Int<T, To>{x}] from an [Int<T, From>] of the same [T]: a copy when
    the orders agree, else through [operator T()] and line 66. *)
Definition reorder {T : ityp} {From : endian} (To : endian) (x : Int T From) : Int T To :=
  match endian_eq_dec From To with
  | left e => Int_copy (same_Int eq_refl e x)
  | right _ => Int_from (operator_T x)
  end.

(** [hash_value], lines 212-214, with a 64-bit [std::size_t]. *)
Definition hash_value {T E} (x : Int T E) : Z := static_cast uint64_t (raw x).

(** [endian_cast<To>(x)], lines 216-218: [Int<T, To>{x}]. *)
Definition endian_cast {T : ityp} {From : endian} (To : endian) (x : Int T From) : Int T To :=
  reorder To x.

(** [narrow_cast<ToT>(Int<FmT, E>)] for [ToT] other than [FmT], lines
    220-223. *)
Definition narrow_cast_cross (ToT : ityp) {FmT : ityp} {E : endian}
    (x : Int FmT E) : Int ToT native :=
  Int_from (narrow_cast ToT (value x)).

(** [narrow_cast<ToT>(Int<FmT, E>)] for [ToT] the same as [FmT], lines
    225-228. *)
Definition narrow_cast_same {T : ityp} {E : endian} (x : Int T E) : Int T E := x.

(** The call [narrow_cast<ToT>(x)]: the two overloads have complementary
    constraints; the result carries its order tag. *)
Definition narrow_cast_Int (ToT : ityp) {FmT : ityp} {E : endian}
    (x : Int FmT E) : { E' : endian & Int ToT E' } :=
  match ityp_eq_dec FmT ToT with
  | left e => existT _ E (same_Int e eq_refl (narrow_cast_same x))
  | right _ => existT _ native (narrow_cast_cross ToT x)
  end.

(** [byteswap(Int<T, E> x)], lines 230-233: [Int<T, ~E>{x}]. *)
Definition byteswap {T : ityp} {E : endian} (x : Int T E) : Int T (operator_tilde E) :=
  reorder (operator_tilde E) x.

Section Arithmetic.
Context {T : ityp} {E : endian}.

(** The assignment [*this = x] for a plain [x] of type [T] itself: the
    template of lines 69-70 at [U = T], whose body is [_set(T{x})]. *)
Definition assign_T (self : Int T E) (x : Z) : Int T E :=
  _set self (static_cast T x).

(** [operator++()] and [operator--()], lines 119-123:
    [*this = static_cast<T>(value() + 1)]; the literal [1] is an [int]. *)
Definition operator_preinc (self : Int T E) : option (Int T E) :=
  option_map (fun s => assign_T self (static_cast T s))
             (add T int32_t (value self) 1).

Definition operator_predec (self : Int T E) : option (Int T E) :=
  option_map (fun s => assign_T self (static_cast T s))
             (sub T int32_t (value self) 1).

(** [operator++(int)] and [operator--(int)], lines 125-135: the prior
    value is returned beside the updated object. *)
Definition operator_postinc (self : Int T E) : option (Z * Int T E) :=
  let prev := value self in
  option_map (fun s => (prev, assign_T self (static_cast T s)))
             (add T int32_t prev 1).

Definition operator_postdec (self : Int T E) : option (Z * Int T E) :=
  let prev := value self in
  option_map (fun s => (prev, assign_T self (static_cast T s)))
             (sub T int32_t prev 1).

(** [operator+=(U rhs)] ... [operator%=(U rhs)], lines 138-156, which
    exist for [NonNarrowing<U, T>]:
    [*this = narrow_cast<T>(value() op rhs)]. *)
Definition operator_add_assign (U : ityp) (self : Int T E) (rhs : Z) : option (Int T E) :=
  option_map (fun s => assign_T self (narrow_cast T s)) (add T U (value self) rhs).

Definition operator_sub_assign (U : ityp) (self : Int T E) (rhs : Z) : option (Int T E) :=
  option_map (fun s => assign_T self (narrow_cast T s)) (sub T U (value self) rhs).

Definition operator_mul_assign (U : ityp) (self : Int T E) (rhs : Z) : option (Int T E) :=
  option_map (fun s => assign_T self (narrow_cast T s)) (mul T U (value self) rhs).

Definition operator_div_assign (U : ityp) (self : Int T E) (rhs : Z) : option (Int T E) :=
  option_map (fun s => assign_T self (narrow_cast T s)) (div T U (value self) rhs).

Definition operator_rem_assign (U : ityp) (self : Int T E) (rhs : Z) : option (Int T E) :=
  option_map (fun s => assign_T self (narrow_cast T s)) (rem T U (value self) rhs).

(** [operator<<=] and [operator>>=], lines 158-162:
    [*this = static_cast<T>(value() << rhs)]. *)
Definition operator_shl_assign (self : Int T E) (rhs : Z) : option (Int T E) :=
  option_map (fun s => assign_T self (static_cast T s)) (shl T (value self) rhs).

Definition operator_shr_assign (self : Int T E) (rhs : Z) : option (Int T E) :=
  option_map (fun s => assign_T self (static_cast T s)) (shr T (value self) rhs).

(** The compound assignments from an [Int] of the same instantiation,
    lines 164-168: [*this op= T{rhs}]. *)
Definition operator_add_assign_Int (self rhs : Int T E) : option (Int T E) :=
  operator_add_assign T self (static_cast T (operator_T rhs)).

Definition operator_sub_assign_Int (self rhs : Int T E) : option (Int T E) :=
  operator_sub_assign T self (static_cast T (operator_T rhs)).

(** [operator|=(U rhs)], [operator&=(U rhs)], [operator^=(U rhs)], lines
    179-186, which exist for [NonNarrowing<U, T>]:
    [*this op= Int{T{rhs}}]. *)
Definition operator_or_assign_U (U : ityp) (self : Int T E) (rhs : Z) : Int T E :=
  operator_or_assign self (Int_from (static_cast T rhs)).

Definition operator_and_assign_U (U : ityp) (self : Int T E) (rhs : Z) : Int T E :=
  operator_and_assign self (Int_from (static_cast T rhs)).

Definition operator_xor_assign_U (U : ityp) (self : Int T E) (rhs : Z) : Int T E :=
  operator_xor_assign self (Int_from (static_cast T rhs)).

End Arithmetic.

(** [x == y] for two [Int] of the same [T] and different orders: no
    member applies, both operands go through [operator T()], line 104,
    and the built-in [==] compares the values. *)
Definition operator_eq_builtin {T : ityp} {E E2 : endian}
    (x : Int T E) (y : Int T E2) : bool :=
  operator_T x =? operator_T y.

End Host.

End tjg.

(* ===================================================================== *)
(** ** The specification's own wording and example                        *)
(* ===================================================================== *)

(** The truncation as the specification words it: the source modulo
    [2 ^ (bit width of the destination)], reinterpreted with the
    destination's signedness. *)
Definition spec_truncate (ToT : cpp.ityp) (v : Z) : Z :=
  cpp.reinterpret ToT (v mod 2 ^ cpp.width ToT).

(** The example of the specification: [0x12345678] as a 32-bit unsigned
    value, tagged little and tagged big. *)
Definition lil_12345678 (native : std.endian) : tjg.Int cpp.uint32_t std.little :=
  tjg.Int_from native 0x12345678.
Definition big_12345678 (native : std.endian) : tjg.Int cpp.uint32_t std.big :=
  tjg.Int_from native 0x12345678.

(* ===================================================================== *)
(** ** Byte sequences and bit patterns                                    *)
(* ===================================================================== *)

Module byte_sequences.
Import std.

Lemma bswap_bound n z : 0 <= bswap n z < 2 ^ (Z.of_nat n * 8).
Proof.
  unfold bswap.
  pose proof (le_combine_bound (rev (le_split n z))) as H.
  rewrite length_rev, length_le_split in H.
  replace (Z.of_nat n * 8) with (8 * Z.of_nat n) by lia. exact H.
Qed.

Lemma bswap_mod n z : bswap n (z mod 2 ^ (Z.of_nat n * 8)) = bswap n z.
Proof. unfold bswap. now rewrite <- le_split_mod. Qed.

Lemma bswap_involutive n z : bswap n (bswap n z) = z mod 2 ^ (Z.of_nat n * 8).
Proof.
  unfold bswap.
  rewrite split_le_combine' by now rewrite length_rev, length_le_split.
  rewrite rev_involutive. apply le_combine_split.
Qed.

Lemma testbit_byte_high (b : byte) i : 8 <= i -> Z.testbit (byte.unsigned b) i = false.
Proof.
  intros Hi. pose proof (byte.unsigned_range b) as Hb.
  destruct (Z.eq_dec (byte.unsigned b) 0) as [->|Hne]; [apply Z.bits_0|].
  apply Z.bits_above_log2; [lia|].
  apply Z.log2_lt_pow2; [lia|].
  apply Z.lt_le_trans with (2 ^ 8); [lia | apply Z.pow_le_mono_r; lia].
Qed.

Lemma testbit_le_combine l : forall i, 0 <= i ->
  Z.testbit (le_combine l) i =
  Z.testbit (byte.unsigned (nth (Z.to_nat (i / 8)) l Byte.x00)) (i mod 8).
Proof.
  induction l as [|h t IH]; intros i Hi.
  - cbn. destruct (Z.to_nat (i / 8)); cbn; now rewrite !Z.bits_0.
  - change (le_combine (h :: t))
      with (Z.lor (byte.unsigned h) (Z.shiftl (le_combine t) 8)).
    rewrite Z.lor_spec, Z.shiftl_spec by lia.
    destruct (Z_lt_le_dec i 8) as [Hlt|Hge].
    + rewrite (Z.testbit_neg_r _ (i - 8)) by lia.
      rewrite Z.div_small, Z.mod_small by lia. cbn. apply orb_false_r.
    + rewrite testbit_byte_high by lia. cbn [orb].
      rewrite IH by lia.
      replace i with ((i - 8) + 1 * 8) at 3 4 by lia.
      rewrite Z.div_add, Z.mod_add by lia.
      rewrite Z2Nat.inj_add by (try apply Z.div_pos; lia).
      rewrite Nat.add_comm. reflexivity.
Qed.

Lemma nth_le_split n z k : (k < n)%nat ->
  nth k (le_split n z) Byte.x00 = byte.of_Z (Z.shiftr z (8 * Z.of_nat k)).
Proof.
  intros Hk. apply nth_error_nth. now apply nth_error_le_split.
Qed.

(** Bit [i] of the reversed pattern is the bit at the same place inside
    the mirrored byte. *)
Lemma testbit_bswap n z i : 0 <= i < Z.of_nat n * 8 ->
  Z.testbit (bswap n z) i =
  Z.testbit z (8 * (Z.of_nat n - 1 - i / 8) + i mod 8).
Proof.
  intros Hi. unfold bswap.
  assert (Hq : 0 <= i / 8 < Z.of_nat n).
  { split; [apply Z.div_pos; lia | apply Z.div_lt_upper_bound; lia]. }
  pose proof (Z.mod_pos_bound i 8 ltac:(lia)) as Hr.
  rewrite testbit_le_combine by lia.
  rewrite rev_nth by (rewrite length_le_split; lia).
  rewrite length_le_split.
  rewrite nth_le_split by lia.
  rewrite byte.unsigned_of_Z. unfold byte.wrap.
  rewrite Z.mod_pow2_bits_low by lia.
  rewrite Z.shiftr_spec by lia.
  f_equal. lia.
Qed.

Lemma testbit_bswap_high n z i : Z.of_nat n * 8 <= i -> Z.testbit (bswap n z) i = false.
Proof.
  intros Hi. pose proof (bswap_bound n z) as Hb.
  destruct (Z.eq_dec (bswap n z) 0) as [->|Hne]; [apply Z.bits_0|].
  apply Z.bits_above_log2; [lia|].
  apply Z.lt_le_trans with (Z.of_nat n * 8); [|lia].
  apply Z.log2_lt_pow2; lia.
Qed.

End byte_sequences.

(* ===================================================================== *)
(** ** Facts about the built-in conversions                               *)
(* ===================================================================== *)

Module cpp_facts.
Import cpp.

Lemma width_pos T : 0 < width T.
Proof. destruct T; cbv; reflexivity. Qed.

Lemma width_eq T : width T = Z.of_nat (sizeof T) * 8.
Proof. reflexivity. Qed.

Ltac by_type T :=
  destruct T;
  cbv [static_cast reinterpret in_range in_rangeb narrowing min_value
       max_value is_signed width sizeof andb negb promote] in *;
  repeat match goal with
         | |- context [Z.of_nat ?n] =>
             let v := eval cbv in (Z.of_nat n) in change (Z.of_nat n) with v
         | H : context [Z.of_nat ?n] |- _ =>
             let v := eval cbv in (Z.of_nat n) in change (Z.of_nat n) with v in H
         end;
  cbn [Z.mul Z.sub Z.add Z.opp Pos.mul Pos.add Z.pos_sub Pos.pred_double] in *.

Ltac arith := repeat (match goal with
                      | |- context [?a <=? ?b] => destruct (Z.leb_spec a b)
                      | |- context [?a =? ?b] => destruct (Z.eqb_spec a b)
                      end); try (Z.div_mod_to_equations; lia).

(** [static_cast] lands in the destination type. *)
Lemma static_cast_in_range T z : in_range T (static_cast T z).
Proof. by_type T; arith. Qed.

(** [static_cast] keeps a representable value. *)
Lemma static_cast_id T z : in_range T z -> static_cast T z = z.
Proof. intros H; by_type T; arith. Qed.

(** Away from [bool], [static_cast] is the value modulo [2 ^ width],
    read with the destination's signedness. *)
Lemma static_cast_reinterpret T z :
  T <> bool_t -> static_cast T z = reinterpret T (z mod 2 ^ width T).
Proof. intros H; by_type T; try congruence; arith. Qed.

Lemma static_cast_congruent T z :
  T <> bool_t -> (static_cast T z) mod 2 ^ width T = z mod 2 ^ width T.
Proof. intros H; by_type T; try congruence; arith. Qed.

Lemma reinterpret_mod T u : (reinterpret T u) mod 2 ^ width T = u mod 2 ^ width T.
Proof. by_type T; arith. Qed.

Lemma reinterpret_in_range T u :
  T <> bool_t -> 0 <= u < 2 ^ width T -> in_range T (reinterpret T u).
Proof. intros H Hu; by_type T; try congruence; arith. Qed.

Lemma reinterpret_pattern T z : in_range T z -> reinterpret T (z mod 2 ^ width T) = z.
Proof. intros H; by_type T; arith. Qed.

Lemma pattern_inj T a b :
  in_range T a -> in_range T b -> a mod 2 ^ width T = b mod 2 ^ width T -> a = b.
Proof.
  intros Ha Hb H. rewrite <- (reinterpret_pattern T a Ha), <- (reinterpret_pattern T b Hb).
  now rewrite H.
Qed.

(** The conversions on the values used in the tests of the repository. *)
Example static_cast_low_half : static_cast uint16_t 0x12345678 = 0x5678.
Proof. reflexivity. Qed.

Example static_cast_to_signed : static_cast int8_t 200 = -56.
Proof. reflexivity. Qed.

Example static_cast_to_bool : static_cast bool_t 256 = 1.
Proof. reflexivity. Qed.

Example byteswap_example : std.byteswap uint32_t 0x12345678 = 0x78563412.
Proof. vm_compute. reflexivity. Qed.

Example byteswap_into_sign_bit : std.byteswap int16_t 128 = -32768.
Proof. vm_compute. reflexivity. Qed.

End cpp_facts.

(* ===================================================================== *)
(** ** Bit-level facts about patterns, signs and byte reversal            *)
(* ===================================================================== *)

Module bits.
Import cpp std cpp_facts byte_sequences.

Lemma testbit_above a k i : 0 <= a < 2 ^ k -> k <= i -> Z.testbit a i = false.
Proof.
  intros Ha Hi.
  destruct (Z.eq_dec a 0) as [->|Hne]; [apply Z.bits_0|].
  destruct (Z_lt_le_dec k 0) as [Hk|Hk].
  { rewrite Z.pow_neg_r in Ha by lia. lia. }
  apply Z.bits_above_log2; [lia|].
  apply Z.lt_le_trans with k; [|lia].
  apply Z.log2_lt_pow2; lia.
Qed.

Lemma testbit_top a k : 0 <= k -> 2 ^ k <= a < 2 ^ (k + 1) -> Z.testbit a k = true.
Proof.
  intros Hk Ha. apply Z.testbit_true; [lia|].
  replace (k + 1) with (Z.succ k) in Ha by lia.
  rewrite Z.pow_succ_r in Ha by lia.
  assert (a / 2 ^ k = 1) as ->; [|reflexivity].
  symmetry. apply Z.div_unique with (a - 2 ^ k); lia.
Qed.

(** Reading a pattern as a signed value extends its top bit. *)
Lemma testbit_reinterpret T u i :
  0 <= u < 2 ^ width T -> 0 <= i ->
  Z.testbit (reinterpret T u) i =
  Z.testbit u (if is_signed T then Z.min i (width T - 1) else i).
Proof.
  intros Hu Hi. pose proof (width_pos T) as Hw. unfold reinterpret.
  destruct (is_signed T); cbn [andb]; [|reflexivity].
  assert (Hp : 2 ^ width T = 2 * 2 ^ (width T - 1)).
  { rewrite <- Z.pow_succ_r by lia. f_equal. lia. }
  destruct (Z.leb_spec (2 ^ (width T - 1)) u) as [Hge|Hlt].
  - assert (Htop : Z.testbit u (width T - 1) = true).
    { apply testbit_top; [lia|]. replace (width T - 1 + 1) with (width T) by lia. lia. }
    destruct (Z_lt_le_dec i (width T)) as [Hlo|Hhi].
    + rewrite Z.min_l by lia.
      rewrite <- (Z.mod_pow2_bits_low (u - 2 ^ width T) (width T)) by lia.
      rewrite <- (Z.mod_pow2_bits_low u (width T) i) by lia.
      f_equal. replace (u - 2 ^ width T) with (u + (-1) * 2 ^ width T) by lia.
      apply Z.mod_add. lia.
    + rewrite Z.min_r by lia. rewrite Htop.
      replace (u - 2 ^ width T) with (Z.lnot (2 ^ width T - 1 - u))
        by (unfold Z.lnot; lia).
      rewrite Z.lnot_spec by lia.
      rewrite (testbit_above _ (width T)); [reflexivity | lia | lia].
  - destruct (Z_lt_le_dec i (width T - 1)) as [Hlo|Hhi].
    + now rewrite Z.min_l by lia.
    + rewrite Z.min_r by lia.
      rewrite (testbit_above u (width T - 1) i), (testbit_above u (width T - 1) (width T - 1));
        auto; lia.
Qed.

Section Bitwise.
(** A bitwise binary operation that keeps zero bits zero. *)
Variable op : Z -> Z -> Z.
Variable f : bool -> bool -> bool.
Hypothesis op_spec : forall a b i, Z.testbit (op a b) i = f (Z.testbit a i) (Z.testbit b i).
Hypothesis f_false : f false false = false.

Lemma bswap_bitwise n a b : bswap n (op a b) = op (bswap n a) (bswap n b).
Proof.
  apply Z.bits_inj'. intros i Hi. rewrite op_spec.
  destruct (Z_lt_le_dec i (Z.of_nat n * 8)) as [Hlo|Hhi].
  - rewrite !testbit_bswap by lia. apply op_spec.
  - now rewrite !testbit_bswap_high by lia.
Qed.

Lemma reinterpret_bitwise T p q :
  0 <= p < 2 ^ width T -> 0 <= q < 2 ^ width T -> 0 <= op p q < 2 ^ width T ->
  reinterpret T (op p q) = op (reinterpret T p) (reinterpret T q).
Proof.
  intros Hp Hq Hpq. apply Z.bits_inj'. intros i Hi.
  rewrite op_spec, !testbit_reinterpret by assumption. apply op_spec.
Qed.
End Bitwise.

Lemma bswap_lnot n a :
  bswap n (Z.lnot a) = Z.lnot (bswap n a) mod 2 ^ (Z.of_nat n * 8).
Proof.
  apply Z.bits_inj'. intros i Hi.
  destruct (Z_lt_le_dec i (Z.of_nat n * 8)) as [Hlo|Hhi].
  - rewrite Z.mod_pow2_bits_low by lia.
    rewrite Z.lnot_spec, !testbit_bswap by lia.
    apply Z.lnot_spec.
    assert (0 <= i / 8 < Z.of_nat n)
      by (split; [apply Z.div_pos; lia | apply Z.div_lt_upper_bound; lia]).
    pose proof (Z.mod_pos_bound i 8 ltac:(lia)). lia.
  - rewrite Z.mod_pow2_bits_high by lia. apply testbit_bswap_high. lia.
Qed.

End bits.

(* ===================================================================== *)
(** ** Facts about [std::byteswap] on values                              *)
(* ===================================================================== *)

Module byteswap_facts.
Import cpp std cpp_facts byte_sequences bits.

Lemma byteswap_unfold T z : byteswap T z = reinterpret T (bswap (sizeof T) z).
Proof. reflexivity. Qed.

Lemma bswap_one_byte z : bswap 1 z = z mod 2 ^ 8.
Proof.
  unfold bswap. change (rev (le_split 1 z)) with (le_split 1 z).
  apply le_combine_split.
Qed.

(** A one-byte value is its own byte reversal. *)
Lemma byteswap_one_byte T z : sizeof T = 1%nat -> in_range T z -> byteswap T z = z.
Proof.
  intros Hs Hz. rewrite byteswap_unfold, Hs, bswap_one_byte.
  rewrite <- (reinterpret_pattern T z Hz) at 2.
  unfold width. now rewrite Hs.
Qed.

Lemma byteswap_in_range T z : in_range T z -> in_range T (byteswap T z).
Proof.
  intros Hz. destruct (ityp_eq_dec T bool_t) as [->|Hb].
  - now rewrite byteswap_one_byte.
  - rewrite byteswap_unfold. apply reinterpret_in_range; [assumption|].
    apply bswap_bound.
Qed.

Lemma bswap_reinterpret T u : bswap (sizeof T) (reinterpret T u) = bswap (sizeof T) u.
Proof.
  rewrite <- (bswap_mod _ (reinterpret T u)), <- (bswap_mod _ u).
  f_equal. apply reinterpret_mod.
Qed.

Lemma bswap_static_cast T z :
  T <> bool_t -> bswap (sizeof T) (static_cast T z) = bswap (sizeof T) z.
Proof.
  intros Hb. rewrite <- (bswap_mod _ (static_cast T z)), <- (bswap_mod _ z).
  f_equal. now apply static_cast_congruent.
Qed.

(** [std::byteswap] is an involution on the values of [T]. *)
Lemma byteswap_involutive T z : in_range T z -> byteswap T (byteswap T z) = z.
Proof.
  intros Hz. rewrite !byteswap_unfold.
  rewrite bswap_reinterpret, bswap_involutive.
  now apply reinterpret_pattern.
Qed.

Lemma byteswap_inj T a b :
  in_range T a -> in_range T b -> byteswap T a = byteswap T b -> a = b.
Proof.
  intros Ha Hb H.
  rewrite <- (byteswap_involutive T a Ha), <- (byteswap_involutive T b Hb).
  now rewrite H.
Qed.

Lemma byteswap_0 T : byteswap T 0 = 0.
Proof. destruct T; vm_compute; reflexivity. Qed.

Lemma byteswap_eq_0 T z : in_range T z -> (byteswap T z = 0 <-> z = 0).
Proof.
  intros Hz. split; intros H.
  - apply (byteswap_inj T); auto.
    + destruct T; cbv; split; discriminate.
    + now rewrite byteswap_0.
  - subst. apply byteswap_0.
Qed.

Section Bitwise.
Variable op : Z -> Z -> Z.
Variable f : bool -> bool -> bool.
Hypothesis op_spec : forall a b i, Z.testbit (op a b) i = f (Z.testbit a i) (Z.testbit b i).
Hypothesis f_false : f false false = false.

Lemma bitwise_bound k a b :
  0 <= k -> 0 <= a < 2 ^ k -> 0 <= b < 2 ^ k -> 0 <= op a b < 2 ^ k.
Proof.
  intros Hk Ha Hb.
  assert (E : op a b = op a b mod 2 ^ k).
  { apply Z.bits_inj'. intros i Hi.
    destruct (Z_lt_le_dec i k).
    - now rewrite Z.mod_pow2_bits_low by lia.
    - rewrite Z.mod_pow2_bits_high by lia.
      now rewrite op_spec, (testbit_above a k), (testbit_above b k) by lia. }
  rewrite E. apply Z.mod_pos_bound. apply Z.pow_pos_nonneg; lia.
Qed.

(** The built-in operation followed by the conversion back to [T], as
    in [_raw op= rhs._raw], commutes with byte reversal. *)
Lemma byteswap_bitwise T a b :
  in_range T a -> in_range T b ->
  byteswap T (static_cast T (op a b)) = op (byteswap T a) (byteswap T b).
Proof.
  intros Ha Hb. destruct (ityp_eq_dec T bool_t) as [->|Hn].
  - rewrite (byteswap_one_byte bool_t a), (byteswap_one_byte bool_t b) by auto.
    assert (Hab : in_range bool_t (op a b)).
    { cbv [in_range min_value max_value is_signed] in *.
      pose proof (bitwise_bound 1 a b ltac:(lia)) as H.
      change (2 ^ 1) with 2 in H. lia. }
    rewrite static_cast_id by exact Hab.
    now apply byteswap_one_byte.
  - rewrite !byteswap_unfold, bswap_static_cast by assumption.
    rewrite (bswap_bitwise op f op_spec f_false).
    pose proof (width_pos T).
    apply (reinterpret_bitwise op f op_spec);
      [apply bswap_bound | apply bswap_bound |].
    apply bitwise_bound; try apply bswap_bound. unfold width in *; lia.
Qed.
End Bitwise.

Lemma static_cast_promote T z :
  T <> bool_t -> static_cast T (static_cast (promote T) z) = static_cast T z.
Proof. intros H; by_type T; try congruence; arith. Qed.

(** [T(~v)], the complement of a plain [T] converted back to [T],
    commutes with byte reversal. *)
Lemma byteswap_compl T r :
  in_range T r ->
  byteswap T (static_cast T (compl T r)) = static_cast T (compl T (byteswap T r)).
Proof.
  intros Hr. destruct (ityp_eq_dec T bool_t) as [->|Hn].
  - rewrite (byteswap_one_byte bool_t r) by auto.
    apply byteswap_one_byte; [reflexivity | apply static_cast_in_range].
  - unfold compl. rewrite !static_cast_promote by assumption.
    rewrite (static_cast_reinterpret T (Z.lnot (byteswap T r))) by assumption.
    rewrite byteswap_unfold, bswap_static_cast by assumption.
    f_equal. rewrite bswap_lnot. fold (width T).
    rewrite byteswap_unfold. unfold Z.lnot. rewrite <- !Z.sub_1_r.
    set (p := bswap (sizeof T) r).
    rewrite (Zminus_mod (- reinterpret T p) 1), (Zminus_mod (- p) 1).
    f_equal. f_equal.
    rewrite <- !Z.sub_0_l, (Zminus_mod 0 (reinterpret T p)), (Zminus_mod 0 p).
    now rewrite reinterpret_mod.
Qed.

End byteswap_facts.

(* ===================================================================== *)
(** ** Facts about the members of [Int<T, E>]                             *)
(* ===================================================================== *)

Module Int_facts.
Import cpp std tjg cpp_facts byte_sequences bits byteswap_facts.

Lemma endian_eqb_eq a b : endian_eqb a b = true <-> a = b.
Proof. unfold endian_eqb. destruct (endian_eq_dec a b); split; congruence. Qed.

Lemma endian_eqb_refl a : endian_eqb a a = true.
Proof. now apply endian_eqb_eq. Qed.

Lemma endian_eqb_neq a b : a <> b -> endian_eqb a b = false.
Proof. unfold endian_eqb. destruct (endian_eq_dec a b); congruence. Qed.

Lemma operator_tilde_involutive e : operator_tilde (operator_tilde e) = e.
Proof. now destruct e. Qed.

Lemma operator_tilde_flips e : operator_tilde e <> e.
Proof. now destruct e. Qed.

Lemma same_as_eq a b : same_as a b = true <-> a = b.
Proof. unfold same_as. destruct (ityp_eq_dec a b); split; congruence. Qed.

Lemma ityp_eq_dec_refl T : ityp_eq_dec T T = left eq_refl.
Proof.
  destruct (ityp_eq_dec T T) as [e|n]; [|congruence].
  f_equal. apply UIP_dec, ityp_eq_dec.
Qed.

Lemma endian_eq_dec_refl e : endian_eq_dec e e = left eq_refl.
Proof.
  destruct (endian_eq_dec e e) as [p|n]; [|congruence].
  f_equal. apply UIP_dec, endian_eq_dec.
Qed.

Section Host.
Variable native : endian.
Context {T : ityp} {E : endian}.
Implicit Types (x y self : Int T E) (v : Z).

Lemma raw_set_native self v : E = native -> _raw (_set native self v) = v.
Proof. intros ->. unfold _set. now rewrite endian_eqb_refl. Qed.

Lemma raw_set_other self v : E <> native -> _raw (_set native self v) = std.byteswap T v.
Proof. intros H. unfold _set. now rewrite endian_eqb_neq. Qed.

Lemma wf_set self v : in_range T v -> wf (_set native self v).
Proof.
  intros Hv. unfold wf, _set. destruct (endian_eqb E native); cbn; auto.
  now apply byteswap_in_range.
Qed.

(** What [_set] stores, [value] reads back. *)
Lemma value_set self v : in_range T v -> value native (_set native self v) = v.
Proof.
  intros Hv. unfold value, _get, _set.
  destruct (endian_eqb E native); cbn; auto.
  now apply byteswap_involutive.
Qed.

Lemma wf_value x : wf x -> in_range T (value native x).
Proof.
  unfold wf, value, _get. intros H.
  destruct (endian_eqb E native); auto. now apply byteswap_in_range.
Qed.

Lemma value_Int_from v : in_range T v -> value native (Int_from native v : Int T E) = v.
Proof. apply value_set. Qed.

Lemma wf_Int_from v : in_range T v -> wf (Int_from native v : Int T E).
Proof. apply wf_set. Qed.

(** [_set] after [value] restores the storage: the accessors lose
    nothing. *)
Lemma set_value x : wf x -> _set native x (value native x) = x.
Proof.
  unfold wf, value, _get, _set. intros H. destruct x as [r]; cbn in *.
  destruct (endian_eqb E native); cbn; auto.
  now rewrite byteswap_involutive.
Qed.

Lemma value_inj x y : wf x -> wf y -> value native x = value native y -> x = y.
Proof.
  unfold wf, value, _get. destruct x as [a], y as [b]; cbn.
  intros Ha Hb H. f_equal.
  destruct (endian_eqb E native); auto. now apply (byteswap_inj T).
Qed.

End Host.

Section Reorder.
Variable native : endian.
Context {T : ityp}.

Lemma raw_reorder_same {From} To (x : Int T From) :
  From = To -> _raw (reorder native To x) = _raw x.
Proof.
  intros ->. unfold reorder. now rewrite endian_eq_dec_refl.
Qed.

Lemma raw_reorder_other {From} To (x : Int T From) :
  From <> To -> _raw (reorder native To x) = std.byteswap T (_raw x).
Proof.
  intros Hne. unfold reorder.
  destruct (endian_eq_dec From To) as [e|_]; [contradiction|].
  unfold Int_from, operator_T, value, _get, _set, Int_default.
  destruct From, To, native; try congruence; cbn; auto.
Qed.

Lemma value_reorder {From} To (x : Int T From) :
  wf x -> value native (reorder native To x) = value native x.
Proof.
  intros Hx. unfold reorder.
  destruct (endian_eq_dec From To) as [e|_].
  - now destruct e.
  - apply value_Int_from. now apply wf_value.
Qed.

Lemma wf_reorder {From} To (x : Int T From) : wf x -> wf (reorder native To x).
Proof.
  intros Hx. unfold reorder.
  destruct (endian_eq_dec From To) as [e|_].
  - now destruct e.
  - apply wf_Int_from. now apply wf_value.
Qed.

Lemma le_split_byteswap (r : Z) :
  le_split (sizeof T) (std.byteswap T r) = rev (le_split (sizeof T) r).
Proof.
  unfold std.byteswap. rewrite le_split_mod, <- width_eq, reinterpret_mod, width_eq.
  rewrite <- le_split_mod. unfold bswap.
  apply split_le_combine'. now rewrite length_rev, length_le_split.
Qed.

End Reorder.

End Int_facts.

(* ===================================================================== *)
(** ** The properties of the specification                                *)
(* ===================================================================== *)

Import cpp std tjg cpp_facts byte_sequences bits byteswap_facts Int_facts.

Ltac in_range_solve := cbv; split; discriminate.

(** C3. For every integral type [T], order tag [E] and value [x] of
    [Int<T, E>], [byteswap(byteswap(x))] is [x] again, with the same tag
    and the same raw storage; one [byteswap] keeps the logical value,
    reverses the stored bytes and flips the tag. *)
Theorem C3_byteswap_involutive (native : endian) (T : ityp) (E : endian) (x : Int T E) :
  wf x ->
  existT (Int T) (operator_tilde (operator_tilde E))
         (tjg.byteswap native (tjg.byteswap native x)) = existT (Int T) E x
  /\ value native (tjg.byteswap native x) = value native x
  /\ _raw (tjg.byteswap native x) = std.byteswap T (_raw x)
  /\ object_bytes native (tjg.byteswap native x) = rev (object_bytes native x)
  /\ Endian (tjg.byteswap native x) = operator_tilde E
  /\ operator_tilde E <> E.
Proof.
  intros Hx.
  assert (R1 : _raw (tjg.byteswap native x) = std.byteswap T (_raw x)).
  { apply raw_reorder_other. intros H. symmetry in H. now apply operator_tilde_flips in H. }
  assert (R2 : _raw (tjg.byteswap native (tjg.byteswap native x)) = _raw x).
  { unfold tjg.byteswap at 1. rewrite raw_reorder_other.
    - rewrite R1. now apply byteswap_involutive.
    - intros H. symmetry in H. now apply operator_tilde_flips in H. }
  repeat split.
  - revert R2. generalize (tjg.byteswap native (tjg.byteswap native x)).
    rewrite operator_tilde_involutive. intros [r] R2. destruct x as [r0].
    cbn in R2. now subst.
  - now apply value_reorder.
  - exact R1.
  - unfold object_bytes. rewrite R1, le_split_byteswap.
    destruct native; [reflexivity | now rewrite rev_involutive].
  - apply operator_tilde_flips.
Qed.

Lemma C3_byteswap_involutive_witness :
  value std.little (tjg.byteswap std.little (lil_12345678 std.little)) = 0x12345678
  /\ _raw (tjg.byteswap std.little (lil_12345678 std.little)) = 0x78563412.
Proof.
  destruct (C3_byteswap_involutive std.little uint32_t std.little
              (lil_12345678 std.little)) as (_ & Hv & Hr & _).
  - in_range_solve.
  - split; [rewrite Hv | rewrite Hr]; vm_compute; reflexivity.
Defined.

(** C4. For every integral type [T] (of any width, so also wider than
    one byte) and logical value [v], the [Int<T, little>] and the
    [Int<T, big>] constructed from [v] report [v] through [value()], and
    their stored bytes are the reversals of one another: the little one
    holds the bytes of [v] least significant first, the big one most
    significant first. *)
Theorem C4_little_big_reversed (native : endian) (T : ityp) (v : Z) :
  in_range T v ->
  let xl : Int T std.little := Int_from native v in
  let xb : Int T std.big := Int_from native v in
  value native xl = v /\ value native xb = v
  /\ _raw xl = std.byteswap T (_raw xb)
  /\ object_bytes native xl = rev (object_bytes native xb)
  /\ object_bytes native xl = le_split (sizeof T) v
  /\ object_bytes native xb = rev (le_split (sizeof T) v).
Proof.
  intros Hv xl xb.
  split; [now apply value_Int_from|]. split; [now apply value_Int_from|].
  unfold xl, xb, object_bytes, Int_from, _set, Int_default.
  destruct native; cbn; rewrite ?le_split_byteswap, ?rev_involutive;
    rewrite ?byteswap_involutive by assumption; repeat split; reflexivity.
Qed.

Lemma C4_little_big_reversed_witness :
  object_bytes std.big (lil_12345678 std.big)
    = [Byte.x78; Byte.x56; Byte.x34; Byte.x12]
  /\ object_bytes std.big (big_12345678 std.big)
    = [Byte.x12; Byte.x34; Byte.x56; Byte.x78]
  /\ value std.big (lil_12345678 std.big) = value std.big (big_12345678 std.big).
Proof.
  destruct (C4_little_big_reversed std.big uint32_t 0x12345678)
    as (Hl & Hb & _ & _ & Bl & Bb).
  - in_range_solve.
  - unfold lil_12345678, big_12345678.
    rewrite Bl, Bb, Hl, Hb. repeat split.
Defined.

(** C5. For every integral type [T], tags [O] and [O2] and value [v],
    [value(endian_cast<O>(endian_cast<O2>(v))) == value(v)]; an
    [endian_cast] leaves the storage unchanged when the source and
    destination tags are the same and reverses its bytes when they
    differ. *)
Theorem C5_endian_cast_preserves_value
    (native : endian) (T : ityp) (E O O2 : endian) (v : Int T E) :
  wf v ->
  value native (endian_cast native O (endian_cast native O2 v)) = value native v
  /\ (E = O2 -> _raw (endian_cast native O2 v) = _raw v)
  /\ (E <> O2 -> _raw (endian_cast native O2 v) = std.byteswap T (_raw v)).
Proof.
  intros Hv. unfold endian_cast. repeat split.
  - rewrite value_reorder by now apply wf_reorder. now apply value_reorder.
  - apply raw_reorder_same.
  - apply raw_reorder_other.
Qed.

Lemma C5_endian_cast_preserves_value_witness :
  value std.little
    (endian_cast std.little std.little (endian_cast std.little std.big (lil_12345678 std.little)))
  = 0x12345678
  /\ _raw (endian_cast std.little std.big (lil_12345678 std.little)) = 0x78563412.
Proof.
  destruct (C5_endian_cast_preserves_value std.little uint32_t std.little
              std.little std.big (lil_12345678 std.little)) as (Hv & _ & Hr).
  - in_range_solve.
  - split; [rewrite Hv | rewrite Hr by discriminate]; vm_compute; reflexivity.
Defined.

(** C6. For two values [x], [y] of the same [Int<T, E>]: [x == y] holds
    iff the raw bit patterns are identical, which is the same as equal
    logical values; [<=>], [<], [<=], [>], [>=] compare [value(x)] with
    [value(y)], so the result does not change when both operands are
    re-expressed under any other tag. *)
Theorem C6_equality_and_ordering (native : endian) (T : ityp) (E : endian) (x y : Int T E) :
  wf x -> wf y ->
  (operator_eq x y = true <-> _raw x = _raw y)
  /\ (_raw x = _raw y <-> value native x = value native y)
  /\ operator_spaceship native x y = (value native x ?= value native y)
  /\ (operator_lt native x y = true <-> value native x < value native y)
  /\ (operator_le native x y = true <-> value native x <= value native y)
  /\ (operator_gt native x y = true <-> value native x > value native y)
  /\ (operator_ge native x y = true <-> value native x >= value native y)
  /\ (forall E' : endian,
        operator_spaceship native (endian_cast native E' x) (endian_cast native E' y)
        = operator_spaceship native x y).
Proof.
  intros Hx Hy.
  split; [apply Z.eqb_eq|].
  split.
  { split; intros H.
    - unfold value, _get. now rewrite H.
    - now rewrite (value_inj native x y Hx Hy H). }
  split; [reflexivity|].
  unfold operator_lt, operator_le, operator_gt, operator_ge, operator_spaceship.
  repeat split; intros H.
  all: try (destruct (Z.compare_spec (value native x) (value native y));
            (lia || discriminate || reflexivity)).
  intros; unfold endian_cast; now rewrite !value_reorder.
Qed.

Lemma C6_equality_and_ordering_witness :
  let x : Int uint16_t std.big := Int_from std.little 1 in
  let y : Int uint16_t std.big := Int_from std.little 256 in
  operator_lt std.little x y = true /\ _raw y < _raw x.
Proof.
  intros x y.
  destruct (C6_equality_and_ordering std.little uint16_t std.big x y)
    as (_ & _ & _ & Hlt & _).
  - in_range_solve.
  - in_range_solve.
  - split; [apply Hlt|]; vm_compute; reflexivity.
Defined.

(** Values of [T] are closed under the bitwise operations. *)
Lemma bitwise_in_range (op : Z -> Z -> Z) (f : bool -> bool -> bool) (T : ityp) (a b : Z) :
  (forall a b i, Z.testbit (op a b) i = f (Z.testbit a i) (Z.testbit b i)) ->
  f false false = false ->
  in_range T a -> in_range T b -> in_range T (op a b).
Proof.
  intros Hop Hf Ha Hb. destruct (ityp_eq_dec T bool_t) as [->|Hn].
  - cbv [in_range min_value max_value is_signed] in *.
    pose proof (bitwise_bound op f Hop Hf 1 a b ltac:(lia)) as H.
    change (2 ^ 1) with 2 in H. lia.
  - pose proof (width_pos T) as Hw.
    assert (Hm : forall z, 0 <= z mod 2 ^ width T < 2 ^ width T)
      by (intros; apply Z.mod_pos_bound, Z.pow_pos_nonneg; lia).
    assert (Hpq := bitwise_bound op f Hop Hf (width T) _ _ ltac:(lia)
                     (Hm a) (Hm b)).
    rewrite <- (reinterpret_pattern T a Ha), <- (reinterpret_pattern T b Hb).
    rewrite <- (reinterpret_bitwise op f Hop) by auto.
    now apply reinterpret_in_range.
Qed.

Section BitwiseMembers.
Variable native : endian.
Context {T : ityp} {E : endian}.
Variable op : Z -> Z -> Z.
Variable f : bool -> bool -> bool.
Hypothesis op_spec : forall a b i, Z.testbit (op a b) i = f (Z.testbit a i) (Z.testbit b i).
Hypothesis f_false : f false false = false.

(** The common shape of [Int{*this} op= rhs]. *)
Lemma bitwise_member (x y : Int T E) :
  wf x -> wf y ->
  let r : Int T E := mkInt (static_cast T (op (_raw x) (_raw y))) in
  _raw r = op (_raw x) (_raw y)
  /\ value native r = op (value native x) (value native y)
  /\ wf r.
Proof.
  intros Hx Hy r. unfold wf in *.
  assert (Hr : in_range T (op (_raw x) (_raw y)))
    by now apply (bitwise_in_range op f).
  split; [now apply static_cast_id|].
  split; [|apply static_cast_in_range].
  unfold value, _get. cbn. destruct (endian_eqb E native).
  - now apply static_cast_id.
  - now apply (byteswap_bitwise op f).
Qed.

End BitwiseMembers.

(** C7. For values [x], [y] of the same [Int<T, E>], [x | y], [x & y]
    and [x ^ y] are again [Int<T, E>] values, computed on the raw
    storage with no byte reordering, and the logical value of the result
    is the same operation on the logical values of the operands. *)
Theorem C7_bitwise_operators (native : endian) (T : ityp) (E : endian) (x y : Int T E) :
  wf x -> wf y ->
  (_raw (operator_or x y) = Z.lor (_raw x) (_raw y)
   /\ value native (operator_or x y) = Z.lor (value native x) (value native y)
   /\ wf (operator_or x y))
  /\ (_raw (operator_and x y) = Z.land (_raw x) (_raw y)
   /\ value native (operator_and x y) = Z.land (value native x) (value native y)
   /\ wf (operator_and x y))
  /\ (_raw (operator_xor x y) = Z.lxor (_raw x) (_raw y)
   /\ value native (operator_xor x y) = Z.lxor (value native x) (value native y)
   /\ wf (operator_xor x y)).
Proof.
  intros Hx Hy. split; [|split].
  - apply (bitwise_member native Z.lor orb Z.lor_spec eq_refl x y Hx Hy).
  - apply (bitwise_member native Z.land andb Z.land_spec eq_refl x y Hx Hy).
  - apply (bitwise_member native Z.lxor xorb Z.lxor_spec eq_refl x y Hx Hy).
Qed.

Lemma C7_bitwise_operators_witness :
  let x : Int int16_t std.big := Int_from std.little (-256) in
  let y : Int int16_t std.big := Int_from std.little 0x3F in
  value std.little (operator_or x y) = -193
  /\ value std.little (operator_and x y) = 0
  /\ value std.little (operator_xor x y) = -193.
Proof.
  intros x y.
  destruct (C7_bitwise_operators std.little int16_t std.big x y)
    as ((_ & Ho & _) & (_ & Ha & _) & (_ & Hx & _)).
  - in_range_solve.
  - in_range_solve.
  - rewrite Ho, Ha, Hx. vm_compute. repeat split.
Defined.

Lemma in_range_promote T v : in_range T v -> in_range (promote T) v.
Proof. intros H; by_type T; lia. Qed.

Lemma static_cast_compl T v :
  in_range T v -> static_cast T (compl T v) = static_cast T (Z.lnot v).
Proof.
  intros Hv. destruct (ityp_eq_dec T bool_t) as [->|Hn].
  - assert (v = 0 \/ v = 1) as [-> | ->] 
      by (cbv [in_range min_value max_value is_signed] in Hv; lia); reflexivity.
  - unfold compl. now apply static_cast_promote.
Qed.

(** C8. For a value [x] of [Int<T, E>] the unary operators act on the
    logical value as they do on a plain [T]: [value(~x)] is the
    complement of [value(x)] converted back to [T]; [!x] holds iff
    [value(x) == 0]; [bool(x)] holds iff [value(x) != 0]; [-x] is the
    negation of [value(x)] in the promoted type. *)
Theorem C8_unary_operators (native : endian) (T : ityp) (E : endian) (x : Int T E) :
  wf x ->
  value native (operator_compl x) = static_cast T (compl T (value native x))
  /\ value native (operator_compl x) = static_cast T (Z.lnot (value native x))
  /\ (operator_not x = true <-> value native x = 0)
  /\ (operator_bool x = true <-> value native x <> 0)
  /\ operator_minus native x = neg T (value native x)
  /\ (is_signed (promote T) = true -> value native x <> min_value (promote T) ->
      operator_minus native x = Some (- value native x))
  /\ (is_signed (promote T) = false ->
      operator_minus native x = Some ((- value native x) mod 2 ^ width T)).
Proof.
  intros Hx. pose proof (wf_value native x Hx) as Hv. unfold wf in Hx.
  assert (C : value native (operator_compl x) = static_cast T (compl T (value native x))).
  { unfold operator_compl, narrow_cast, value, _get. cbn.
    destruct (endian_eqb E native); [reflexivity|].
    now apply byteswap_compl. }
  assert (Z0 : _raw x = 0 <-> value native x = 0).
  { unfold value, _get. destruct (endian_eqb E native); [reflexivity|].
    symmetry. now apply byteswap_eq_0. }
  split; [exact C|]. split; [rewrite C; now apply static_cast_compl|].
  split; [unfold operator_not; rewrite Z.eqb_eq; exact Z0|].
  split.
  { unfold operator_bool. rewrite negb_true_iff, Z.eqb_neq. now rewrite Z0. }
  split; [reflexivity|].
  unfold operator_minus, neg. split.
  - intros Hs Hmin. rewrite Hs.
    apply in_range_promote in Hv.
    assert (in_rangeb (promote T) (- value native x) = true) as ->; [|reflexivity].
    unfold in_rangeb. apply andb_true_iff. rewrite !Z.leb_le.
    revert Hs Hmin Hv. generalize (value native x). intros v.
    by_type T; intros; try discriminate; lia.
  - intros Hs. rewrite Hs. f_equal.
    generalize (value native x). intros v.
    revert Hs. by_type T; intros; try discriminate; reflexivity.
Qed.

Lemma C8_unary_operators_witness :
  let x : Int uint16_t std.big := Int_from std.little 0x00FF in
  value std.little (operator_compl x) = 0xFF00
  /\ operator_minus std.little x = Some (-255)
  /\ operator_bool x = true.
Proof.
  intros x.
  destruct (C8_unary_operators std.little uint16_t std.big x)
    as (_ & Hc & _ & Hb & _ & Hm & _).
  - in_range_solve.
  - rewrite Hc, Hm, Hb by (vm_compute; congruence). vm_compute.
    repeat split. discriminate.
Defined.

(** C9. The order tag of [narrow_cast<ToT>(x)] for [x] of [Int<FmT, E>]
    depends on the types only: when [ToT] is not [FmT] it is the native
    order whatever [E] is; when [ToT] is [FmT] the call returns [x]
    itself with its tag [E]. *)
Theorem C9_narrow_cast_tag (native : endian) (FmT ToT : ityp) (E : endian) (x : Int FmT E) :
  (FmT <> ToT ->
     projT1 (narrow_cast_Int native ToT x) = native
     /\ narrow_cast_Int native ToT x
        = existT _ native (Int_from native (static_cast ToT (value native x))))
  /\ narrow_cast_Int native FmT x = existT _ E x.
Proof.
  unfold narrow_cast_Int. split.
  - intros Hne. destruct (ityp_eq_dec FmT ToT) as [e|_]; [contradiction|].
    split; reflexivity.
  - now rewrite ityp_eq_dec_refl.
Qed.

Lemma C9_narrow_cast_tag_witness :
  projT1 (narrow_cast_Int std.little uint16_t (big_12345678 std.little)) = std.little
  /\ projT1 (narrow_cast_Int std.little uint32_t (big_12345678 std.little)) = std.big.
Proof.
  destruct (C9_narrow_cast_tag std.little uint32_t uint16_t std.big
              (big_12345678 std.little)) as (H & _).
  destruct (C9_narrow_cast_tag std.little uint32_t uint32_t std.big
              (big_12345678 std.little)) as (_ & H').
  split; [apply H; discriminate | now rewrite H'].
Defined.

(** C10. A default-constructed [Int<T, E>] has all-zero storage:
    [value()], [big()], [little()] and [raw()] return 0, [bool(x)] is
    false, and it compares equal to [Int<T, E>{0}]. *)
Theorem C10_default_is_zero (native : endian) (T : ityp) (E : endian) :
  let x : Int T E := Int_default in
  _raw x = 0
  /\ object_bytes native x = repeat Byte.x00 (sizeof T)
  /\ value native x = 0 /\ big x = 0 /\ little x = 0 /\ raw x = 0
  /\ operator_bool x = false
  /\ exists zero : Int T E,
       brace_init_literal native 0 = compiles zero /\ operator_eq x zero = true.
Proof.
  intros x. unfold x, big, little, value, raw, _get, operator_bool, Int_default. cbn.
  split; [reflexivity|].
  split; [destruct native, T; reflexivity|].
  split; [destruct (endian_eqb E native); auto using byteswap_0|].
  split; [destruct (endian_eqb E std.big); auto using byteswap_0|].
  split; [destruct (endian_eqb E std.little); auto using byteswap_0|].
  split; [reflexivity|].
  split; [reflexivity|].
  exists (Int_from native 0). split.
  - unfold brace_init_literal.
    assert (narrowing_constant int32_t T 0 = false) as -> by (destruct T; reflexivity).
    assert (static_cast T 0 = 0) as -> by (destruct T; reflexivity).
    reflexivity.
  - unfold operator_eq, Int_from, _set, Int_default.
    destruct (endian_eqb E native); cbn; [reflexivity|].
    now rewrite byteswap_0.
Qed.

Lemma in_rangeb_iff C r : in_rangeb C r = true <-> in_range C r.
Proof. unfold in_rangeb, in_range. now rewrite andb_true_iff, !Z.leb_le. Qed.

(** [narrowing] decides whether the destination misses a value of the
    source type. *)
Lemma narrowing_false_iff U T :
  narrowing U T = false <-> (forall u, in_range U u -> in_range T u).
Proof.
  unfold narrowing. rewrite negb_false_iff, andb_true_iff, !Z.leb_le.
  unfold in_range. split.
  - intros [H1 H2] u Hu. lia.
  - intros H.
    assert (Hne : min_value U <= max_value U) by (destruct U; cbv; discriminate).
    pose proof (H (min_value U) ltac:(lia)). pose proof (H (max_value U) ltac:(lia)). lia.
Qed.


Lemma NonNarrowing_true U T :
  NonNarrowing U T = true -> forall u, in_range U u -> in_range T u.
Proof.
  unfold NonNarrowing, convertible_to. rewrite orb_true_iff. cbn [andb].
  intros [H|H].
  - apply same_as_eq in H. now subst.
  - apply narrowing_false_iff. now apply negb_true_iff.
Qed.





(** C2. For every source type [FmT], every destination type [ToT] at
    which [Int] can be instantiated, tag [E] and value [x],
    [narrow_cast<ToT>(x)] is defined and its logical value is
    [x.value()] modulo [2 ^ (bit width of ToT)] reinterpreted with the
    signedness of [ToT]: the low-order bits are kept, and the result is
    what [static_cast<ToT>(x.value())] gives. *)
Theorem C2_narrow_cast_low_order_bits
    (native : endian) (FmT ToT : ityp) (E : endian) (x : Int FmT E) :
  instantiable ToT = true -> wf x ->
  let r := projT2 (narrow_cast_Int native ToT x) in
  value native r = spec_truncate ToT (value native x)
  /\ value native r = static_cast ToT (value native x)
  /\ value native r mod 2 ^ width ToT = value native x mod 2 ^ width ToT
  /\ wf r.
Proof.
  intros Hi Hx. pose proof (wf_value native x Hx) as Hv.
  assert (Hn : ToT <> bool_t).
  { intros ->. discriminate Hi. }
  assert (G : let r := projT2 (narrow_cast_Int native ToT x) in
              value native r = static_cast ToT (value native x) /\ wf r).
  { unfold narrow_cast_Int. destruct (ityp_eq_dec FmT ToT) as [e|n].
    - destruct e. cbn. split; [|exact Hx]. now rewrite static_cast_id.
    - cbn. unfold narrow_cast_cross, narrow_cast. split.
      + apply value_Int_from, static_cast_in_range.
      + apply wf_Int_from, static_cast_in_range. }
  cbv zeta in *. destruct G as [G1 G2]. rewrite G1.
  split; [now apply static_cast_reinterpret|].
  split; [reflexivity|].
  split; [now apply static_cast_congruent | exact G2].
Qed.

Lemma C2_narrow_cast_low_order_bits_witness :
  value std.little (projT2 (narrow_cast_Int std.little uint16_t (big_12345678 std.little)))
  = 0x5678.
Proof.
  destruct (C2_narrow_cast_low_order_bits std.little uint32_t uint16_t std.big
              (big_12345678 std.little)) as (H & _).
  - reflexivity.
  - in_range_solve.
  - rewrite H. vm_compute. reflexivity.
Defined.

(* ===================================================================== *)
(** ** Further properties of the members                                  *)
(* ===================================================================== *)

Lemma raw_inj {T E} (x y : Int T E) : _raw x = _raw y -> x = y.
Proof. destruct x, y; cbn; congruence. Qed.

Lemma wf_bitwise_members {T E} (x y : Int T E) :
  wf x -> wf y -> wf (operator_or x y) /\ wf (operator_and x y) /\ wf (operator_xor x y).
Proof.
  intros Hx Hy. repeat split; apply static_cast_in_range.
Qed.

Lemma wf_operator_compl {T E} (x : Int T E) : wf (operator_compl x).
Proof. apply static_cast_in_range. Qed.

(** X1. The accessors lose nothing: the value given to the constructor
    is what [value()] reads back, whatever the tag, and constructing from
    the value read restores the very same storage. *)
Theorem X1_store_load_round_trip
    (native : endian) (T : ityp) (E : endian) (x : Int T E) (v : Z) :
  wf x -> in_range T v ->
  value native (Int_from native v : Int T E) = v
  /\ wf (Int_from native v : Int T E)
  /\ Int_from native (value native x) = x.
Proof.
  intros Hx Hv. split; [now apply value_Int_from|].
  split; [now apply wf_Int_from|].
  unfold Int_from. rewrite <- (set_value native x Hx) at 2.
  unfold _set. now destruct (endian_eqb E native).
Qed.

Lemma X1_store_load_round_trip_witness :
  Int_from std.little (value std.little (big_12345678 std.little))
  = big_12345678 std.little.
Proof.
  destruct (X1_store_load_round_trip std.little uint32_t std.big
              (big_12345678 std.little) 5) as (_ & _ & H).
  - in_range_solve.
  - in_range_solve.
  - exact H.
Defined.

(** X2. [big()] and [little()] depend on the logical value and the host
    only, not on the tag: each is the value itself when the host has that
    order and its byte reversal otherwise; so they are byte reversals of
    one another, and a [T] holding [big()] lies in memory most significant
    byte first, one holding [little()] least significant byte first. *)
Theorem X2_big_little_accessors (native : endian) (T : ityp) (E : endian) (x : Int T E) :
  wf x ->
  big x = match native with
          | std.big => value native x
          | std.little => std.byteswap T (value native x)
          end
  /\ little x = match native with
                | std.little => value native x
                | std.big => std.byteswap T (value native x)
                end
  /\ big x = std.byteswap T (little x)
  /\ object_bytes native (mkInt (big x) : Int T native)
     = rev (le_split (sizeof T) (value native x))
  /\ object_bytes native (mkInt (little x) : Int T native)
     = le_split (sizeof T) (value native x).
Proof.
  intros Hx. unfold wf in Hx.
  unfold big, little, value, _get, object_bytes. cbn [_raw].
  destruct native, E; cbn;
    rewrite ?le_split_byteswap, ?rev_involutive, ?byteswap_involutive by assumption;
    repeat split; reflexivity.
Qed.

Lemma X2_big_little_accessors_witness :
  big (lil_12345678 std.little) = 0x78563412
  /\ little (big_12345678 std.little) = 0x12345678.
Proof.
  destruct (X2_big_little_accessors std.little uint32_t std.little
              (lil_12345678 std.little)) as (Hb & _); [in_range_solve|].
  destruct (X2_big_little_accessors std.little uint32_t std.big
              (big_12345678 std.little)) as (_ & Hl & _); [in_range_solve|].
  rewrite Hb, Hl. vm_compute. split; reflexivity.
Defined.

(** X3. Order casts compose: casting to [O2] and then to [O] is the cast
    to [O], as objects, and the cast to the object's own order is the
    identity. *)
Theorem X3_endian_cast_composes
    (native : endian) (T : ityp) (E O O2 : endian) (x : Int T E) :
  wf x ->
  endian_cast native O (endian_cast native O2 x) = endian_cast native O x
  /\ endian_cast native E x = x.
Proof.
  intros Hx. unfold endian_cast. split.
  - apply (value_inj native); auto using wf_reorder.
    now rewrite !value_reorder by auto using wf_reorder.
  - apply raw_inj. now apply raw_reorder_same.
Qed.

Lemma X3_endian_cast_composes_witness :
  endian_cast std.little std.little
    (endian_cast std.little std.big (lil_12345678 std.little))
  = lil_12345678 std.little.
Proof.
  destruct (X3_endian_cast_composes std.little uint32_t std.little
              std.little std.big (lil_12345678 std.little)) as (H1 & H2).
  - in_range_solve.
  - now rewrite H1, H2.
Defined.

Lemma value_bitwise_members (native : endian) {T E} (x y : Int T E) :
  wf x -> wf y ->
  value native (operator_or x y) = Z.lor (value native x) (value native y)
  /\ value native (operator_and x y) = Z.land (value native x) (value native y)
  /\ value native (operator_xor x y) = Z.lxor (value native x) (value native y).
Proof.
  intros Hx Hy. split; [|split].
  - apply (bitwise_member native Z.lor orb Z.lor_spec eq_refl x y Hx Hy).
  - apply (bitwise_member native Z.land andb Z.land_spec eq_refl x y Hx Hy).
  - apply (bitwise_member native Z.lxor xorb Z.lxor_spec eq_refl x y Hx Hy).
Qed.

Lemma raw_bitwise_members {T E} (x y : Int T E) :
  wf x -> wf y ->
  _raw (operator_or x y) = Z.lor (_raw x) (_raw y)
  /\ _raw (operator_and x y) = Z.land (_raw x) (_raw y)
  /\ _raw (operator_xor x y) = Z.lxor (_raw x) (_raw y).
Proof.
  intros Hx Hy. split; [|split].
  - apply (bitwise_member std.little Z.lor orb Z.lor_spec eq_refl x y Hx Hy).
  - apply (bitwise_member std.little Z.land andb Z.land_spec eq_refl x y Hx Hy).
  - apply (bitwise_member std.little Z.lxor xorb Z.lxor_spec eq_refl x y Hx Hy).
Qed.

(** X4. The bitwise operators commute with [byteswap]: swapping the
    result of [x | y], [x & y] or [x ^ y] gives the same object as
    operating on the swapped operands. *)
Theorem X4_byteswap_bitwise (native : endian) (T : ityp) (E : endian) (x y : Int T E) :
  wf x -> wf y ->
  tjg.byteswap native (operator_or x y)
    = operator_or (tjg.byteswap native x) (tjg.byteswap native y)
  /\ tjg.byteswap native (operator_and x y)
    = operator_and (tjg.byteswap native x) (tjg.byteswap native y)
  /\ tjg.byteswap native (operator_xor x y)
    = operator_xor (tjg.byteswap native x) (tjg.byteswap native y).
Proof.
  intros Hx Hy.
  destruct (wf_bitwise_members x y Hx Hy) as (Wo & Wa & Wx).
  pose proof (wf_reorder native (operator_tilde E) x Hx) as Bx.
  pose proof (wf_reorder native (operator_tilde E) y Hy) as By.
  destruct (value_bitwise_members native x y Hx Hy) as (Vo & Va & Vx).
  destruct (value_bitwise_members native _ _ Bx By) as (Vo' & Va' & Vx').
  destruct (wf_bitwise_members _ _ Bx By) as (Wo' & Wa' & Wx').
  unfold tjg.byteswap in *.
  repeat split; apply (value_inj native); auto using wf_reorder;
    rewrite value_reorder by assumption;
    rewrite ?Vo', ?Va', ?Vx', !value_reorder by assumption; assumption.
Qed.

Lemma X4_byteswap_bitwise_witness :
  _raw (tjg.byteswap std.little
          (operator_or (lil_12345678 std.little) (lil_12345678 std.little)))
  = 0x78563412.
Proof.
  destruct (X4_byteswap_bitwise std.little uint32_t std.little
              (lil_12345678 std.little) (lil_12345678 std.little)) as (H & _).
  - in_range_solve.
  - in_range_solve.
  - rewrite H. vm_compute. reflexivity.
Defined.

Lemma hash_inj T a b :
  in_range T a -> in_range T b ->
  static_cast uint64_t a = static_cast uint64_t b -> a = b.
Proof. intros Ha Hb; by_type T; arith. Qed.

(** X5. [hash_value] is a collision-free image of the raw storage: two
    values of one instantiation have the same hash iff they compare equal
    with [==], and the hash is a 64-bit unsigned number. *)
Theorem X5_hash_injective (T : ityp) (E : endian) (x y : Int T E) :
  wf x -> wf y ->
  (hash_value x = hash_value y <-> operator_eq x y = true)
  /\ 0 <= hash_value x < 2 ^ 64.
Proof.
  intros Hx Hy. unfold hash_value, raw, operator_eq. rewrite Z.eqb_eq. split.
  - split; [now apply (hash_inj T) | now intros ->].
  - pose proof (static_cast_in_range uint64_t (_raw x)) as H.
    cbv [in_range min_value max_value is_signed width sizeof] in H.
    change (Z.of_nat 8 * 8) with 64 in H. lia.
Qed.

Lemma X5_hash_injective_witness :
  hash_value (big_12345678 std.little) = 0x78563412
  /\ hash_value (big_12345678 std.little) <> hash_value (big_12345678 std.big).
Proof.
  destruct (X5_hash_injective uint32_t std.big
              (big_12345678 std.little) (big_12345678 std.big)) as (H & _).
  - in_range_solve.
  - in_range_solve.
  - split; [vm_compute; reflexivity|].
    intros Heq. apply H in Heq. vm_compute in Heq. discriminate Heq.
Defined.

(** X6. The order-cast bridge for look-ups: when [x] and [y] hold the
    same logical value under tags [E] and [E2], casting [y] to [E] gives
    exactly [x], hence the same hash and a true [==]. *)
Theorem X6_hash_bridged
    (native : endian) (T : ityp) (E E2 : endian) (x : Int T E) (y : Int T E2) :
  wf x -> wf y -> value native x = value native y ->
  endian_cast native E y = x
  /\ hash_value (endian_cast native E y) = hash_value x
  /\ operator_eq (endian_cast native E y) x = true.
Proof.
  intros Hx Hy Hv.
  assert (Heq : endian_cast native E y = x).
  { apply (value_inj native); auto using wf_reorder.
    unfold endian_cast. now rewrite value_reorder. }
  rewrite Heq. repeat split. apply Z.eqb_refl.
Qed.

Lemma X6_hash_bridged_witness :
  hash_value (endian_cast std.little std.little (big_12345678 std.little))
  = hash_value (lil_12345678 std.little).
Proof.
  destruct (X6_hash_bridged std.little uint32_t std.little std.big
              (lil_12345678 std.little) (big_12345678 std.little)) as (_ & H & _).
  - in_range_solve.
  - in_range_solve.
  - vm_compute. reflexivity.
  - exact H.
Defined.

(** X7. Without the bridge the hashes of two opposite-order holders of
    one logical value agree only for a value that is its own byte
    reversal. *)
Theorem X7_hash_unbridged
    (native : endian) (T : ityp) (E E2 : endian) (x : Int T E) (y : Int T E2) :
  wf x -> wf y -> E <> E2 -> value native x = value native y ->
  (hash_value x = hash_value y <-> std.byteswap T (value native x) = value native x).
Proof.
  intros Hx Hy Hne Hv. unfold hash_value, raw.
  assert (Hr : _raw y = std.byteswap T (_raw x)).
  { revert Hv. unfold value, _get. unfold wf in *.
    destruct E, E2, native; try congruence; cbn; intros Hv;
      first [ now rewrite <- Hv
            | rewrite Hv; symmetry; now apply byteswap_involutive ]. }
  assert (Hs : std.byteswap T (value native x) = value native x
               <-> std.byteswap T (_raw x) = _raw x).
  { unfold value, _get. destruct (endian_eqb E native); [reflexivity|].
    unfold wf in Hx. rewrite byteswap_involutive by assumption.
    split; congruence. }
  rewrite Hs, Hr. split.
  - intros H. symmetry. apply (hash_inj T); auto. now apply byteswap_in_range.
  - now intros ->.
Qed.

Lemma X7_hash_unbridged_witness :
  hash_value (lil_12345678 std.little) <> hash_value (big_12345678 std.little).
Proof.
  destruct (X7_hash_unbridged std.little uint32_t std.little std.big
              (lil_12345678 std.little) (big_12345678 std.little)) as (H & _).
  - in_range_solve.
  - in_range_solve.
  - discriminate.
  - vm_compute. reflexivity.
  - intros Heq. apply H in Heq. vm_compute in Heq. discriminate Heq.
Defined.

(** X8. The raw-storage [==] agrees with the numeric [<=>]: [x == y] iff
    [x <=> y] is equal.  [<] is a strict total order on the values of an
    instantiation: irreflexive, transitive, and of [x < y], [x == y],
    [y < x] exactly one holds. *)
Theorem X8_equality_consistent_with_order
    (native : endian) (T : ityp) (E : endian) (x y z : Int T E) :
  wf x -> wf y -> wf z ->
  (operator_eq x y = true <-> operator_spaceship native x y = Eq)
  /\ operator_spaceship native y x = CompOpp (operator_spaceship native x y)
  /\ operator_lt native x x = false
  /\ (operator_lt native x y = true -> operator_lt native y z = true ->
      operator_lt native x z = true)
  /\ (operator_lt native x y = true /\ operator_eq x y = false
        /\ operator_lt native y x = false
      \/ operator_lt native x y = false /\ operator_eq x y = true
        /\ operator_lt native y x = false
      \/ operator_lt native x y = false /\ operator_eq x y = false
        /\ operator_lt native y x = true).
Proof.
  intros Hx Hy Hz.
  assert (Heq : operator_eq x y = true <-> value native x = value native y).
  { unfold operator_eq. rewrite Z.eqb_eq. split; intros H.
    - unfold value, _get. now rewrite H.
    - now rewrite (value_inj native x y Hx Hy H). }
  unfold operator_lt, operator_spaceship in *.
  split; [rewrite Heq; symmetry; apply Z.compare_eq_iff|].
  split; [apply Z.compare_antisym|].
  split; [now rewrite Z.compare_refl|].
  split.
  - destruct (Z.compare_spec (value native x) (value native y)); try discriminate.
    destruct (Z.compare_spec (value native y) (value native z)); try discriminate.
    destruct (Z.compare_spec (value native x) (value native z)); auto; lia.
  - destruct (operator_eq x y) eqn:Eq.
    + assert (V : value native x = value native y) by now apply Heq.
      rewrite V, Z.compare_refl. auto.
    + assert (Hn : value native x <> value native y).
      { intros H. apply Heq in H. discriminate H. }
      destruct (Z.compare_spec (value native x) (value native y));
      destruct (Z.compare_spec (value native y) (value native x)); auto; lia.
Qed.

Lemma X8_equality_consistent_with_order_witness :
  let x : Int uint16_t std.big := Int_from std.little 1 in
  let y : Int uint16_t std.big := Int_from std.little 256 in
  operator_spaceship std.little y x = Gt /\ operator_eq x y = false.
Proof.
  intros x y.
  destruct (X8_equality_consistent_with_order std.little uint16_t std.big x y y)
    as (_ & H & _).
  - in_range_solve.
  - in_range_solve.
  - in_range_solve.
  - rewrite H. vm_compute. split; reflexivity.
Defined.

(** X9. [^] undoes itself: [(x ^ y) ^ y] is [x] again, as an object, and
    [x ^ x] is the default-constructed zero. *)
Theorem X9_xor_self_inverse (T : ityp) (E : endian) (x y : Int T E) :
  wf x -> wf y ->
  operator_xor (operator_xor x y) y = x
  /\ operator_xor x x = Int_default.
Proof.
  intros Hx Hy.
  destruct (wf_bitwise_members x y Hx Hy) as (_ & _ & Wx).
  destruct (raw_bitwise_members x y Hx Hy) as (_ & _ & R1).
  destruct (raw_bitwise_members _ y Wx Hy) as (_ & _ & R2).
  destruct (raw_bitwise_members x x Hx Hx) as (_ & _ & R3).
  split; apply raw_inj.
  - rewrite R2, R1, Z.lxor_assoc, Z.lxor_nilpotent. apply Z.lxor_0_r.
  - rewrite R3. apply Z.lxor_nilpotent.
Qed.

Lemma X9_xor_self_inverse_witness :
  operator_xor (operator_xor (lil_12345678 std.big) (lil_12345678 std.little))
               (lil_12345678 std.little)
  = lil_12345678 std.big.
Proof.
  destruct (X9_xor_self_inverse uint32_t std.little
              (lil_12345678 std.big) (lil_12345678 std.little)) as (H & _).
  - in_range_solve.
  - in_range_solve.
  - exact H.
Defined.

Lemma raw_operator_compl {T E} (x : Int T E) :
  wf x -> _raw (operator_compl x) = static_cast T (Z.lnot (_raw x)).
Proof. intros Hx. now apply static_cast_compl. Qed.

Lemma compl_compl T r :
  T <> bool_t -> in_range T r ->
  static_cast T (Z.lnot (static_cast T (Z.lnot r))) = r.
Proof. intros Hb Hr. unfold Z.lnot. by_type T; try congruence; arith. Qed.

Lemma instantiable_iff T : instantiable T = true <-> T <> bool_t.
Proof.
  unfold instantiable. rewrite negb_true_iff. split.
  - intros H ->. now rewrite (proj2 (same_as_eq bool_t bool_t) eq_refl) in H.
  - intros H. destruct (same_as T bool_t) eqn:S; [|reflexivity].
    apply same_as_eq in S. contradiction.
Qed.

Lemma compl_value T v :
  T <> bool_t -> in_range T v ->
  static_cast T (Z.lnot v) = min_value T + max_value T - v.
Proof. intros Hb Hv. unfold Z.lnot. by_type T; try congruence; arith. Qed.

(** X10. [~] flips every bit of the logical value and is an involution:
    for every [T] at which [Int] can be instantiated, [value(~x)] is
    [min + max - value(x)] for the limits of [T], and [~~x] is [x] again,
    as an object. *)
Theorem X10_complement_involutive (native : endian) (T : ityp) (E : endian) (x : Int T E) :
  instantiable T = true -> wf x ->
  operator_compl (operator_compl x) = x
  /\ value native (operator_compl x) = min_value T + max_value T - value native x.
Proof.
  intros Hi Hx. apply instantiable_iff in Hi. split.
  - apply raw_inj.
    rewrite raw_operator_compl by apply wf_operator_compl.
    rewrite raw_operator_compl by assumption.
    now apply compl_compl.
  - pose proof (wf_value native x Hx) as Hv. unfold wf in Hx.
    rewrite <- compl_value by assumption.
    rewrite <- static_cast_compl by assumption.
    unfold operator_compl, narrow_cast, value, _get. cbn.
    destruct (endian_eqb E native); [reflexivity|].
    now apply byteswap_compl.
Qed.

Lemma X10_complement_involutive_witness :
  operator_compl (operator_compl (big_12345678 std.little)) = big_12345678 std.little
  /\ value std.little (operator_compl (big_12345678 std.little)) = 0xEDCBA987.
Proof.
  destruct (X10_complement_involutive std.little uint32_t std.big
              (big_12345678 std.little)) as (H & H').
  - reflexivity.
  - in_range_solve.
  - split; [exact H|]. rewrite H'. vm_compute. reflexivity.
Defined.

(** X11. The bitwise assignments from a plain [U] that does not narrow
    to [T] act on the logical value although they work on the raw
    storage: after [x |= u] the value is [value(x) | u], and likewise for
    [&=] and [^=]. *)
Theorem X11_bitwise_assign_plain
    (native : endian) (T U : ityp) (E : endian) (x : Int T E) (u : Z) :
  NonNarrowing U T = true -> wf x -> in_range U u ->
  value native (operator_or_assign_U native U x u) = Z.lor (value native x) u
  /\ value native (operator_and_assign_U native U x u) = Z.land (value native x) u
  /\ value native (operator_xor_assign_U native U x u) = Z.lxor (value native x) u.
Proof.
  intros NN Hx Hu. pose proof (NonNarrowing_true U T NN u Hu) as Ht.
  unfold operator_or_assign_U, operator_and_assign_U, operator_xor_assign_U.
  rewrite static_cast_id by assumption.
  pose proof (wf_Int_from native u Ht : wf (Int_from native u : Int T E)) as Wy.
  destruct (value_bitwise_members native x (Int_from native u) Hx Wy) as (Vo & Va & Vx).
  rewrite (value_Int_from native u Ht) in Vo, Va, Vx.
  repeat split; assumption.
Qed.

Lemma X11_bitwise_assign_plain_witness :
  value std.little
    (operator_and_assign_U std.little uint16_t (big_12345678 std.little) 0xFF00)
  = 0x5600.
Proof.
  destruct (X11_bitwise_assign_plain std.little uint32_t uint16_t std.big
              (big_12345678 std.little) 0xFF00) as (_ & H & _).
  - vm_compute. reflexivity.
  - in_range_solve.
  - in_range_solve.
  - rewrite H. vm_compute. reflexivity.
Defined.

(** X12. Equality across orders: the built-in [==] reached through
    [operator T()] on an [Int<T, E>] and an [Int<T, E2>] decides equality
    of the logical values, and gives what the member [==] gives once the
    right operand is cast to the order of the left one. *)
Theorem X12_equality_across_orders
    (native : endian) (T : ityp) (E E2 : endian) (x : Int T E) (y : Int T E2) :
  wf x -> wf y ->
  (operator_eq_builtin native x y = true <-> value native x = value native y)
  /\ operator_eq_builtin native x y = operator_eq x (endian_cast native E y).
Proof.
  intros Hx Hy. unfold operator_eq_builtin, operator_T.
  split; [apply Z.eqb_eq|].
  pose proof (wf_reorder native E y Hy) as Wy.
  pose proof (value_reorder native E y Hy) as Vy.
  unfold endian_cast, operator_eq.
  destruct (Z.eqb_spec (value native x) (value native y)) as [H|H];
  destruct (Z.eqb_spec (_raw x) (_raw (reorder native E y))) as [H'|H']; auto.
  - exfalso. apply H'. f_equal. apply (value_inj native); auto. congruence.
  - exfalso. apply H. rewrite <- Vy. unfold value, _get. now rewrite H'.
Qed.

Lemma X12_equality_across_orders_witness :
  operator_eq_builtin std.little (lil_12345678 std.little) (big_12345678 std.little) = true
  /\ _raw (lil_12345678 std.little) <> _raw (big_12345678 std.little).
Proof.
  destruct (X12_equality_across_orders std.little uint32_t std.little std.big
              (lil_12345678 std.little) (big_12345678 std.little)) as (H & _).
  - in_range_solve.
  - in_range_solve.
  - split; [apply H; vm_compute; reflexivity | vm_compute; discriminate].
Defined.

Lemma value_narrow_cast_Int (native : endian) (FmT ToT : ityp) (E : endian) (x : Int FmT E) :
  wf x ->
  value native (projT2 (narrow_cast_Int native ToT x)) = static_cast ToT (value native x)
  /\ wf (projT2 (narrow_cast_Int native ToT x)).
Proof.
  intros Hx. pose proof (wf_value native x Hx) as Hv.
  unfold narrow_cast_Int. destruct (ityp_eq_dec FmT ToT) as [e|n].
  - destruct e. cbn. split; [|exact Hx]. now rewrite static_cast_id.
  - cbn. unfold narrow_cast_cross, narrow_cast. split.
    + apply value_Int_from, static_cast_in_range.
    + apply wf_Int_from, static_cast_in_range.
Qed.

(** X13. [narrow_cast] loses nothing it need not lose: when the logical
    value is representable in [ToT] it is kept, and widening to a type
    [U] that represents all of [T] and narrowing back to [T] returns the
    original logical value. *)
Theorem X13_narrow_cast_round_trip
    (native : endian) (T U ToT : ityp) (E : endian) (x : Int T E) :
  wf x ->
  (in_range ToT (value native x) ->
     value native (projT2 (narrow_cast_Int native ToT x)) = value native x)
  /\ (NonNarrowing T U = true ->
     value native
       (projT2 (narrow_cast_Int native T (projT2 (narrow_cast_Int native U x))))
     = value native x).
Proof.
  intros Hx. pose proof (wf_value native x Hx) as Hv.
  destruct (value_narrow_cast_Int native T ToT E x Hx) as (V1 & _).
  destruct (value_narrow_cast_Int native T U E x Hx) as (V2 & W2).
  split.
  - intros Hr. rewrite V1. now apply static_cast_id.
  - intros NN. pose proof (NonNarrowing_true T U NN _ Hv) as Hu.
    destruct (value_narrow_cast_Int native U T _ _ W2) as (V3 & _).
    rewrite V3, V2. now rewrite (static_cast_id U), (static_cast_id T).
Qed.

Lemma X13_narrow_cast_round_trip_witness :
  value std.little
    (projT2 (narrow_cast_Int std.little uint32_t
       (projT2 (narrow_cast_Int std.little uint64_t (big_12345678 std.little)))))
  = 0x12345678.
Proof.
  destruct (X13_narrow_cast_round_trip std.little uint32_t uint64_t bool_t std.big
              (big_12345678 std.little)) as (_ & H); [in_range_solve|].
  rewrite H by (vm_compute; reflexivity). vm_compute. reflexivity.
Defined.

(* ===================================================================== *)
(** ** Arithmetic members                                                 *)
(* ===================================================================== *)

Lemma arith_result_spec C r s :
  arith_result C r = Some s <->
  (is_signed C = true /\ in_range C r /\ s = r)
  \/ (is_signed C = false /\ s = static_cast C r).
Proof.
  unfold arith_result. destruct (is_signed C).
  - destruct (in_rangeb C r) eqn:R.
    + apply in_rangeb_iff in R. split.
      * intros [= <-]. auto.
      * intros [(_ & _ & ->) | (H & _)]; [reflexivity | discriminate].
    + split; [discriminate|].
      intros [(_ & H & _) | (H & _)]; [|discriminate].
      apply in_rangeb_iff in H. congruence.
  - split.
    + intros [= <-]. auto.
    + intros [(H & _) | (_ & ->)]; [discriminate | reflexivity].
Qed.

Lemma arith_result_none C r :
  arith_result C r = None <-> is_signed C = true /\ ~ in_range C r.
Proof.
  unfold arith_result. destruct (is_signed C).
  - destruct (in_rangeb C r) eqn:R.
    + apply in_rangeb_iff in R. split; [discriminate | tauto].
    + split; [|reflexivity]. intros _. split; [reflexivity|].
      intros H. apply in_rangeb_iff in H. congruence.
  - split; [discriminate | intros [H _]; discriminate].
Qed.

Lemma arith_result_cast T r s :
  arith_result (promote T) r = Some s -> static_cast T s = static_cast T r.
Proof.
  intros H. apply arith_result_spec in H.
  destruct H as [(_ & _ & ->) | (Hs & ->)]; [reflexivity|].
  destruct T; try discriminate Hs; cbn [promote];
    apply static_cast_id, static_cast_in_range.
Qed.

Lemma common_type_NonNarrowing T U :
  NonNarrowing U T = true -> common_type T U = promote T.
Proof.
  destruct T, U; intros H; try reflexivity; vm_compute in H; discriminate H.
Qed.

Lemma common_type_int T : common_type T int32_t = promote T.
Proof. destruct T; reflexivity. Qed.

Lemma binary_NonNarrowing f T U a b :
  NonNarrowing U T = true -> in_range T a -> in_range U b ->
  binary f T U a b = arith_result (promote T) (f a b).
Proof.
  intros NN Ha Hb. unfold binary. rewrite common_type_NonNarrowing by assumption.
  pose proof (NonNarrowing_true U T NN b Hb) as Hb'.
  now rewrite !static_cast_id by now apply in_range_promote.
Qed.

Lemma binary_int f T a :
  in_range T a -> binary f T int32_t a 1 = arith_result (promote T) (f a 1).
Proof.
  intros Ha. unfold binary. rewrite common_type_int.
  rewrite (static_cast_id _ a) by now apply in_range_promote.
  now replace (static_cast (promote T) 1) with 1 by (destruct T; reflexivity).
Qed.

Lemma static_cast_idem T z : static_cast T (static_cast T z) = static_cast T z.
Proof. apply static_cast_id, static_cast_in_range. Qed.

Section AssignT.
Variable native : endian.
Context {T : ityp} {E : endian}.

Lemma value_assign_T (self : Int T E) s :
  value native (assign_T native self s) = static_cast T s.
Proof. apply value_set, static_cast_in_range. Qed.

Lemma wf_assign_T (self : Int T E) s : wf (assign_T native self s).
Proof. apply wf_set, static_cast_in_range. Qed.

Lemma assign_T_eq (self x : Int T E) s :
  wf x -> static_cast T s = value native x -> assign_T native self s = x.
Proof.
  intros Hx Hs. apply (value_inj native); auto using wf_assign_T.
  now rewrite value_assign_T.
Qed.

(** The assignment of a plain [T] is the viable overload of [operator=]. *)
Lemma operator_assign_same (self : Int T E) s :
  operator_assign native T self s = compiles (assign_T native self s).
Proof.
  unfold operator_assign, NonNarrowing.
  now rewrite (proj2 (same_as_eq T T) eq_refl).
Qed.

End AssignT.

Lemma increment_defined T v :
  in_range T v ->
  (arith_result (promote T) (v + 1) = None
   <-> (T = int32_t \/ T = int64_t) /\ v = max_value T)
  /\ (arith_result (promote T) (v - 1) = None
   <-> (T = int32_t \/ T = int64_t) /\ v = min_value T).
Proof.
  intros Hv. rewrite !arith_result_none. by_type T.
  all: split;
    (split;
     [ intros [H1 H2]; try discriminate H1;
       first [exfalso; lia | (split; [auto | lia])]
     | intros [[H|H] H2]; try discriminate H; (split; [reflexivity | lia]) ]).
Qed.

(** X14. [++x] and [--x] store [static_cast<T>(value() +/- 1)] and keep
    the storage a value of [T].  The step is computed in the promoted
    type, so it is undefined exactly for [int32_t] and [int64_t] at their
    maximum (minimum for [--]); every other type wraps around, from its
    maximum to its minimum.  [x++] returns the prior value beside the
    object [++x] gives. *)
Theorem X14_increment_decrement (native : endian) (T : ityp) (E : endian) (x : Int T E) :
  wf x ->
  (operator_preinc native x = None
     <-> (T = int32_t \/ T = int64_t) /\ value native x = max_value T)
  /\ (operator_predec native x = None
     <-> (T = int32_t \/ T = int64_t) /\ value native x = min_value T)
  /\ (forall r, operator_preinc native x = Some r ->
        value native r = static_cast T (value native x + 1) /\ wf r)
  /\ (forall r, operator_predec native x = Some r ->
        value native r = static_cast T (value native x - 1) /\ wf r)
  /\ (forall r, T <> bool_t -> value native x = max_value T ->
        operator_preinc native x = Some r -> value native r = min_value T)
  /\ operator_postinc native x
     = option_map (fun r => (value native x, r)) (operator_preinc native x).
Proof.
  intros Hx. pose proof (wf_value native x Hx) as Hv.
  destruct (increment_defined T _ Hv) as [Di Dd].
  unfold operator_preinc, operator_predec, operator_postinc, add, sub.
  rewrite !binary_int by assumption.
  assert (Si : forall r,
    option_map (fun s => assign_T native x (static_cast T s))
      (arith_result (promote T) (value native x + 1)) = Some r ->
    value native r = static_cast T (value native x + 1) /\ wf r).
  { intros r. destruct (arith_result _ _) eqn:A; [|discriminate].
    intros [= <-]. split; [|apply wf_assign_T].
    rewrite value_assign_T, static_cast_idem. now apply arith_result_cast. }
  split; [|split; [|split; [|split; [|split]]]].
  - rewrite <- Di.
    destruct (arith_result (promote T) (value native x + 1)); cbn;
      split; intros H; first [discriminate H | reflexivity].
  - rewrite <- Dd.
    destruct (arith_result (promote T) (value native x - 1)); cbn;
      split; intros H; first [discriminate H | reflexivity].
  - exact Si.
  - intros r.
    destruct (arith_result (promote T) (value native x - 1)) eqn:A;
      cbn; [|discriminate].
    intros [= <-]. split; [|apply wf_assign_T].
    rewrite value_assign_T, static_cast_idem. now apply arith_result_cast.
  - intros r Hb Hmax Hr. destruct (Si r Hr) as [-> _]. rewrite Hmax.
    destruct T; try congruence; reflexivity.
  - destruct (arith_result _ _); reflexivity.
Qed.

Lemma X14_increment_decrement_witness :
  let x : Int uint16_t std.big := Int_from std.little 0xFFFF in
  let y : Int int32_t std.big := Int_from std.little 0x7FFFFFFF in
  operator_preinc std.little x = Some (Int_from std.little 0)
  /\ operator_preinc std.little y = None.
Proof.
  intros x y.
  destruct (X14_increment_decrement std.little int32_t std.big y) as (H & _).
  - in_range_solve.
  - split; [vm_compute; reflexivity|]. apply H. split; [auto|]. vm_compute. reflexivity.
Defined.

(** Adding and then subtracting the same operand, each step converted
    back to [T], returns to the start whenever the first step is defined. *)
Lemma add_sub_core T v u s :
  T <> bool_t -> in_range T v -> in_range T u ->
  arith_result (promote T) (v + u) = Some s ->
  exists s', arith_result (promote T) (static_cast T s - u) = Some s'
             /\ static_cast T s' = v.
Proof.
  intros Hb Hv Hu H. apply arith_result_spec in H.
  destruct H as [(Hs & Hr & ->) | (Hs & ->)].
  - exists (static_cast T (v + u) - u). split.
    + apply arith_result_spec. left. split; [assumption|]. split; [|reflexivity].
      clear Hs. by_type T; try congruence; arith.
    + clear Hs. by_type T; try congruence; arith.
  - exists (static_cast (promote T)
              (static_cast T (static_cast (promote T) (v + u)) - u)). split.
    + apply arith_result_spec. right. split; [assumption|reflexivity].
    + by_type T; try congruence; try discriminate Hs; arith.
Qed.

Lemma sub_add_core T v u s :
  T <> bool_t -> in_range T v -> in_range T u ->
  arith_result (promote T) (v - u) = Some s ->
  exists s', arith_result (promote T) (static_cast T s + u) = Some s'
             /\ static_cast T s' = v.
Proof.
  intros Hb Hv Hu H. apply arith_result_spec in H.
  destruct H as [(Hs & Hr & ->) | (Hs & ->)].
  - exists (static_cast T (v - u) + u). split.
    + apply arith_result_spec. left. split; [assumption|]. split; [|reflexivity].
      clear Hs. by_type T; try congruence; arith.
    + clear Hs. by_type T; try congruence; arith.
  - exists (static_cast (promote T)
              (static_cast T (static_cast (promote T) (v - u)) + u)). split.
    + apply arith_result_spec. right. split; [assumption|reflexivity].
    + by_type T; try congruence; try discriminate Hs; arith.
Qed.

Lemma one_in_range T : in_range T 1.
Proof. destruct T; cbv; split; discriminate. Qed.

(** X15. Increment and decrement cancel: for every [T] at which [Int]
    can be instantiated, when [++x] is defined, [--] of its result is
    defined and is [x] again, and the same with the two exchanged. *)
Theorem X15_increment_decrement_cancel
    (native : endian) (T : ityp) (E : endian) (x : Int T E) :
  instantiable T = true -> wf x ->
  (forall r, operator_preinc native x = Some r ->
     operator_predec native r = Some x)
  /\ (forall r, operator_predec native x = Some r ->
     operator_preinc native r = Some x).
Proof.
  intros Hi Hx. apply instantiable_iff in Hi. rename Hi into Hb.
  pose proof (wf_value native x Hx) as Hv.
  unfold operator_preinc, operator_predec, add, sub.
  split.
  - intros r. rewrite binary_int by assumption.
    destruct (arith_result (promote T) (value native x + 1)) as [s|] eqn:A;
      cbn; [|discriminate].
    intros [= <-].
    rewrite binary_int by apply (wf_value native), wf_assign_T.
    rewrite value_assign_T, static_cast_idem.
    destruct (add_sub_core T _ 1 s Hb Hv (one_in_range T) A) as (s' & -> & Hs').
    cbn. f_equal. apply assign_T_eq; [assumption|].
    now rewrite static_cast_idem.
  - intros r. rewrite binary_int by assumption.
    destruct (arith_result (promote T) (value native x - 1)) as [s|] eqn:A;
      cbn; [|discriminate].
    intros [= <-].
    rewrite binary_int by apply (wf_value native), wf_assign_T.
    rewrite value_assign_T, static_cast_idem.
    destruct (sub_add_core T _ 1 s Hb Hv (one_in_range T) A) as (s' & -> & Hs').
    cbn. f_equal. apply assign_T_eq; [assumption|].
    now rewrite static_cast_idem.
Qed.

Lemma X15_increment_decrement_cancel_witness :
  let x : Int uint16_t std.big := Int_from std.little 0xFFFF in
  operator_predec std.little (Int_from std.little 0 : Int uint16_t std.big) = Some x.
Proof.
  intros x.
  destruct (X15_increment_decrement_cancel std.little uint16_t std.big x) as (H & _).
  - reflexivity.
  - in_range_solve.
  - apply H. vm_compute. reflexivity.
Defined.

Section Compound.
Variable native : endian.
Context {T : ityp} {E : endian}.
Variable U : ityp.
Variable f : Z -> Z -> Z.

(** The common shape of [*this = narrow_cast<T>(value() op rhs)] for
    [+], [-] and [*]. *)
Lemma compound_member (x : Int T E) (u : Z) :
  NonNarrowing U T = true -> wf x -> in_range U u ->
  let res := option_map (fun s => assign_T native x (narrow_cast T s))
                        (binary f T U (value native x) u) in
  (forall r, res = Some r ->
     value native r = static_cast T (f (value native x) u) /\ wf r)
  /\ (res = None <->
      is_signed (promote T) = true /\ ~ in_range (promote T) (f (value native x) u)).
Proof.
  intros NN Hx Hu res. pose proof (wf_value native x Hx) as Hv.
  unfold res. rewrite binary_NonNarrowing by assumption. split.
  - intros r.
    destruct (arith_result (promote T) (f (value native x) u)) as [s|] eqn:A;
      cbn; [|discriminate].
    intros [= <-]. split; [|apply wf_assign_T].
    unfold narrow_cast. rewrite value_assign_T, static_cast_idem.
    now apply arith_result_cast.
  - rewrite <- arith_result_none.
    destruct (arith_result (promote T) (f (value native x) u)); cbn;
      split; intros H; first [discriminate H | reflexivity].
Qed.

End Compound.

Lemma narrow_sum_in_range T v u :
  promote T <> T -> in_range T v -> in_range T u ->
  in_range (promote T) (v + u) /\ in_range (promote T) (v - u).
Proof. intros Hp Hv Hu. by_type T; try congruence; lia. Qed.

(** X16. [x += u], [x -= u] and [x *= u] for a plain [u] of a type [U]
    that does not narrow to [T]: when defined, the new value is
    [static_cast<T>(value(x) op u)] and the storage stays a value of [T].
    The operation is carried out in the promoted type of [T]; it is
    undefined exactly when that type is signed and cannot represent the
    mathematical result, so never for [+=] and [-=] on a [T] narrower
    than [int]. *)
Theorem X16_compound_assignment
    (native : endian) (T U : ityp) (E : endian) (x : Int T E) (u : Z) :
  NonNarrowing U T = true -> wf x -> in_range U u ->
  ((forall r, operator_add_assign native U x u = Some r ->
      value native r = static_cast T (value native x + u) /\ wf r)
   /\ (operator_add_assign native U x u = None <->
       is_signed (promote T) = true /\ ~ in_range (promote T) (value native x + u)))
  /\ ((forall r, operator_sub_assign native U x u = Some r ->
      value native r = static_cast T (value native x - u) /\ wf r)
   /\ (operator_sub_assign native U x u = None <->
       is_signed (promote T) = true /\ ~ in_range (promote T) (value native x - u)))
  /\ ((forall r, operator_mul_assign native U x u = Some r ->
      value native r = static_cast T (value native x * u) /\ wf r)
   /\ (operator_mul_assign native U x u = None <->
       is_signed (promote T) = true /\ ~ in_range (promote T) (value native x * u)))
  /\ (promote T <> T ->
      operator_add_assign native U x u <> None
      /\ operator_sub_assign native U x u <> None).
Proof.
  intros NN Hx Hu.
  pose proof (compound_member native U Z.add x u NN Hx Hu) as Ha.
  pose proof (compound_member native U Z.sub x u NN Hx Hu) as Hs.
  pose proof (compound_member native U Z.mul x u NN Hx Hu) as Hm.
  cbv zeta in Ha, Hs, Hm.
  split; [exact Ha|]. split; [exact Hs|]. split; [exact Hm|].
  intros Hp.
  destruct (narrow_sum_in_range T (value native x) u Hp
              (wf_value native x Hx) (NonNarrowing_true U T NN u Hu)) as [Ra Rs].
  split; intros H.
  - apply (proj2 Ha) in H. tauto.
  - apply (proj2 Hs) in H. tauto.
Qed.

Lemma X16_compound_assignment_witness :
  let x : Int uint16_t std.big := Int_from std.little 0xFFFF in
  operator_mul_assign std.little uint16_t x 0xFFFF = None
  /\ operator_add_assign std.little uint16_t x 2 = Some (Int_from std.little 1).
Proof.
  intros x.
  destruct (X16_compound_assignment std.little uint16_t uint16_t std.big x 0xFFFF)
    as (_ & _ & (_ & H) & _).
  - vm_compute. reflexivity.
  - in_range_solve.
  - in_range_solve.
  - split; [|vm_compute; reflexivity].
    apply H. split; [reflexivity|]. vm_compute. intros [_ C]. now apply C.
Defined.

(** X17. [+=] and [-=] cancel on every instantiation except [bool]: when
    [x += u] is defined, [-= u] on its result is defined and restores
    [x], and the same with the two exchanged. *)
Theorem X17_add_sub_cancel
    (native : endian) (T U : ityp) (E : endian) (x : Int T E) (u : Z) :
  T <> bool_t -> NonNarrowing U T = true -> wf x -> in_range U u ->
  (forall r, operator_add_assign native U x u = Some r ->
     operator_sub_assign native U r u = Some x)
  /\ (forall r, operator_sub_assign native U x u = Some r ->
     operator_add_assign native U r u = Some x).
Proof.
  intros Hb NN Hx Hu. pose proof (wf_value native x Hx) as Hv.
  pose proof (NonNarrowing_true U T NN u Hu) as Hu'.
  unfold operator_add_assign, operator_sub_assign, add, sub, narrow_cast.
  rewrite !(binary_NonNarrowing _ T U (value native x)) by assumption.
  split; intros r.
  - destruct (arith_result (promote T) (value native x + u)) as [s|] eqn:A;
      cbn; [|discriminate].
    intros [= <-].
    rewrite binary_NonNarrowing;
      [|assumption | apply (wf_value native), wf_assign_T | assumption].
    rewrite value_assign_T, static_cast_idem.
    destruct (add_sub_core T _ u s Hb Hv Hu' A) as (s' & -> & Hs').
    cbn. f_equal. apply assign_T_eq; [assumption|].
    now rewrite static_cast_idem.
  - destruct (arith_result (promote T) (value native x - u)) as [s|] eqn:A;
      cbn; [|discriminate].
    intros [= <-].
    rewrite binary_NonNarrowing;
      [|assumption | apply (wf_value native), wf_assign_T | assumption].
    rewrite value_assign_T, static_cast_idem.
    destruct (sub_add_core T _ u s Hb Hv Hu' A) as (s' & -> & Hs').
    cbn. f_equal. apply assign_T_eq; [assumption|].
    now rewrite static_cast_idem.
Qed.

Lemma X17_add_sub_cancel_witness :
  let x : Int int8_t std.big := Int_from std.little 100 in
  operator_sub_assign std.little int8_t (Int_from std.little (-56)) 100 = Some x.
Proof.
  intros x.
  destruct (X17_add_sub_cancel std.little int8_t int8_t std.big x 100) as (H & _).
  - discriminate.
  - vm_compute. reflexivity.
  - in_range_solve.
  - in_range_solve.
  - apply H. vm_compute. reflexivity.
Defined.

Lemma div_NonNarrowing T U v u :
  NonNarrowing U T = true -> in_range T v -> in_range U u ->
  div T U v u = (if u =? 0 then None else arith_result (promote T) (Z.quot v u))
  /\ rem T U v u = (if u =? 0 then None
                    else match arith_result (promote T) (Z.quot v u) with
                         | Some _ => Some (Z.rem v u)
                         | None => None
                         end).
Proof.
  intros NN Hv Hu. unfold div, rem. rewrite common_type_NonNarrowing by assumption.
  pose proof (NonNarrowing_true U T NN u Hu) as Hu'.
  now rewrite !static_cast_id by now apply in_range_promote.
Qed.

Lemma rem_in_range T v u :
  in_range T v -> in_range T u -> u <> 0 -> in_range T (Z.rem v u).
Proof.
  intros Hv Hu Hn.
  pose proof (Z.rem_bound_abs v u Hn) as B.
  destruct (Z_le_gt_dec 0 v) as [Hs|Hs].
  - pose proof (Z.rem_nonneg v u Hn Hs). by_type T; lia.
  - pose proof (Z.rem_nonpos v u Hn ltac:(lia)). by_type T; lia.
Qed.

Lemma quot_rem_identity T v u :
  in_range T v -> in_range T u -> u <> 0 ->
  static_cast T (static_cast T (Z.quot v u) * u + Z.rem v u) = v.
Proof.
  intros Hv Hu Hn. destruct (ityp_eq_dec T bool_t) as [->|Hb].
  - cbv [in_range min_value max_value is_signed] in Hv, Hu.
    assert (u = 1) as -> by lia.
    assert (v = 0 \/ v = 1) as [-> | ->] by lia; reflexivity.
  - rewrite <- (static_cast_id T v Hv) at 3.
    rewrite !(static_cast_reinterpret T) by assumption. f_equal.
    rewrite <- static_cast_reinterpret by assumption.
    rewrite Zplus_mod, Zmult_mod, static_cast_congruent by assumption.
    rewrite <- Zmult_mod, <- Zplus_mod. f_equal.
    rewrite (Z.quot_rem' v u) at 3. ring.
Qed.

(** X18. [x /= u] and [x %= u] for a plain [u] of a type [U] that does
    not narrow to [T]: both are undefined for [u == 0] and for a quotient
    the promoted type cannot represent, and only then; when defined, the
    quotient is truncated towards zero and converted to [T], the remainder
    is exact, and [q * u + r], converted to [T], is the old value. *)
Theorem X18_division_and_remainder
    (native : endian) (T U : ityp) (E : endian) (x : Int T E) (u : Z) :
  NonNarrowing U T = true -> wf x -> in_range U u ->
  (operator_div_assign native U x u = None <->
     u = 0 \/ (is_signed (promote T) = true
               /\ ~ in_range (promote T) (Z.quot (value native x) u)))
  /\ (operator_div_assign native U x u = None <->
      operator_rem_assign native U x u = None)
  /\ (forall q r,
        operator_div_assign native U x u = Some q ->
        operator_rem_assign native U x u = Some r ->
        value native q = static_cast T (Z.quot (value native x) u)
        /\ value native r = Z.rem (value native x) u
        /\ static_cast T (value native q * u + value native r) = value native x).
Proof.
  intros NN Hx Hu. pose proof (wf_value native x Hx) as Hv.
  pose proof (NonNarrowing_true U T NN u Hu) as Hu'.
  destruct (div_NonNarrowing T U _ u NN Hv Hu) as [Dd Dr].
  unfold operator_div_assign, operator_rem_assign, narrow_cast. rewrite Dd, Dr.
  destruct (Z.eqb_spec u 0) as [Hz|Hz]; cbn.
  { split; [tauto|]. split; [tauto|]. discriminate. }
  destruct (arith_result (promote T) (Z.quot (value native x) u)) as [s|] eqn:A; cbn.
  - split.
    { split; [discriminate|]. intros [H|H]; [contradiction|].
      apply arith_result_none in H. congruence. }
    split; [split; discriminate|].
    intros q r [= <-] [= <-].
    rewrite !value_assign_T, !static_cast_idem.
    rewrite (arith_result_cast T _ _ A).
    rewrite (static_cast_id T (Z.rem _ _)) by now apply rem_in_range.
    split; [reflexivity|]. split; [reflexivity|].
    now apply quot_rem_identity.
  - split.
    { split; [|reflexivity]. intros _. right. now apply arith_result_none. }
    split; [tauto|]. discriminate.
Qed.

Lemma X18_division_and_remainder_witness :
  let x : Int int32_t std.big := Int_from std.little (- 2 ^ 31) in
  operator_div_assign std.little int32_t x 0 = None
  /\ operator_rem_assign std.little int32_t x (-1) = None
  /\ operator_div_assign std.little int32_t x 3 = Some (Int_from std.little (-715827882)).
Proof.
  intros x.
  destruct (X18_division_and_remainder std.little int32_t int32_t std.big x 0)
    as (H0 & _); [vm_compute; reflexivity | in_range_solve | in_range_solve |].
  destruct (X18_division_and_remainder std.little int32_t int32_t std.big x (-1))
    as (H1 & H1' & _); [vm_compute; reflexivity | in_range_solve | in_range_solve |].
  split; [apply H0; now left|].
  split; [|vm_compute; reflexivity].
  apply H1', H1. right. split; [reflexivity|].
  vm_compute. intros [_ C]. now apply C.
Defined.

Lemma shift_count_defined T n :
  (0 <=? n) && (n <? width (promote T)) = false <-> n < 0 \/ width (promote T) <= n.
Proof.
  rewrite andb_false_iff, Z.leb_gt, Z.ltb_ge. tauto.
Qed.

Lemma shl_cast T v n :
  in_range T v -> 0 <= n < width (promote T) ->
  static_cast T (static_cast (promote T) (v * 2 ^ n)) = static_cast T (v * 2 ^ n).
Proof.
  intros Hv Hn. destruct (ityp_eq_dec T bool_t) as [->|Hb].
  - cbv [in_range min_value max_value is_signed] in Hv.
    change (width (promote bool_t)) with 32 in Hn.
    assert (0 < 2 ^ n < 2 ^ 32)
      by (split; [apply Z.pow_pos_nonneg; lia | apply Z.pow_lt_mono_r; lia]).
    assert (v = 0 \/ v = 1) as [-> | ->] by lia; [reflexivity|].
    rewrite Z.mul_1_l. generalize dependent (2 ^ n). intros p Hp.
    cbv [static_cast promote is_signed width sizeof].
    change (Z.of_nat 4 * 8) with 32 in *. arith.
  - now apply static_cast_promote.
Qed.

Lemma shr_in_range T v n : 0 <= n -> in_range T v -> in_range T (v / 2 ^ n).
Proof.
  intros Hn Hv.
  assert (Hp : 0 < 2 ^ n) by (apply Z.pow_pos_nonneg; lia).
  assert (H0 : min_value T <= 0 <= max_value T) by (destruct T; cbv; split; discriminate).
  unfold in_range in *.
  destruct (Z_lt_le_dec v 0) as [Hneg|Hpos].
  - assert (v <= v / 2 ^ n) by (apply Z.div_le_lower_bound; nia).
    assert (v / 2 ^ n < 0) by (apply Z.div_lt_upper_bound; lia). lia.
  - assert (0 <= v / 2 ^ n) by (apply Z.div_pos; lia).
    assert (v / 2 ^ n <= v) by (apply Z.div_le_upper_bound; nia). lia.
Qed.

(** X19. [x <<= n] and [x >>= n] are undefined exactly for a count that
    is negative or not below the width of the promoted type of [T] (32
    for every [T] narrower than [int]).  When defined, [<<=] stores
    [value(x) * 2^n] converted to [T], bits shifted out being lost, and
    [>>=] stores [value(x) / 2^n] rounded down, which needs no
    conversion. *)
Theorem X19_shift_assignment
    (native : endian) (T : ityp) (E : endian) (x : Int T E) (n : Z) :
  wf x ->
  (operator_shl_assign native x n = None <-> n < 0 \/ width (promote T) <= n)
  /\ (operator_shr_assign native x n = None <-> n < 0 \/ width (promote T) <= n)
  /\ (forall r, operator_shl_assign native x n = Some r ->
        value native r = static_cast T (value native x * 2 ^ n) /\ wf r)
  /\ (forall r, operator_shr_assign native x n = Some r ->
        value native r = value native x / 2 ^ n /\ wf r).
Proof.
  intros Hx. pose proof (wf_value native x Hx) as Hv.
  unfold operator_shl_assign, operator_shr_assign, shl, shr.
  rewrite <- shift_count_defined.
  destruct ((0 <=? n) && (n <? width (promote T))) eqn:C; cbn.
  - apply andb_true_iff in C. rewrite Z.leb_le, Z.ltb_lt in C.
    split; [split; discriminate|]. split; [split; discriminate|].
    split; intros r [= <-]; (split; [|apply wf_assign_T]);
      rewrite value_assign_T, static_cast_idem.
    + now apply shl_cast.
    + rewrite Z.shiftr_div_pow2 by lia.
      apply static_cast_id, shr_in_range; [lia | assumption].
  - repeat split; try reflexivity; discriminate.
Qed.

Lemma X19_shift_assignment_witness :
  let x : Int uint8_t std.big := Int_from std.little 0x81 in
  operator_shl_assign std.little x 1 = Some (Int_from std.little 2)
  /\ operator_shl_assign std.little x 8 = Some (Int_from std.little 0)
  /\ operator_shl_assign std.little x 32 = None.
Proof.
  intros x.
  destruct (X19_shift_assignment std.little uint8_t std.big x 32) as (H & _).
  - in_range_solve.
  - split; [vm_compute; reflexivity|]. split; [vm_compute; reflexivity|].
    apply H. right. vm_compute. discriminate.
Defined.

Lemma NonNarrowing_refl T : NonNarrowing T T = true.
Proof. unfold NonNarrowing. now rewrite (proj2 (same_as_eq T T) eq_refl). Qed.

(** X20. The compound assignments from an [Int] of the same
    instantiation go through its logical value: when [x += y] is defined
    its value is [static_cast<T>(value(x) + value(y))], and for [T] other
    than [bool] a following [-= y] restores [x]. *)
Theorem X20_compound_assignment_from_Int
    (native : endian) (T : ityp) (E : endian) (x y : Int T E) :
  wf x -> wf y ->
  (forall r, operator_add_assign_Int native x y = Some r ->
     value native r = static_cast T (value native x + value native y) /\ wf r)
  /\ (T <> bool_t -> forall r, operator_add_assign_Int native x y = Some r ->
     operator_sub_assign_Int native r y = Some x).
Proof.
  intros Hx Hy. pose proof (wf_value native x Hx) as Hv.
  pose proof (wf_value native y Hy) as Hu.
  unfold operator_add_assign_Int, operator_sub_assign_Int, operator_T.
  rewrite (static_cast_id T (value native y)) by assumption.
  split.
  - apply (compound_member native T Z.add x _ (NonNarrowing_refl T) Hx Hu).
  - intros Hb r.
    unfold operator_add_assign, operator_sub_assign, add, sub, narrow_cast.
    rewrite binary_NonNarrowing by auto using NonNarrowing_refl.
    destruct (arith_result (promote T) (value native x + value native y))
      as [s|] eqn:A; cbn; [|discriminate].
    intros [= <-].
    rewrite binary_NonNarrowing;
      [|apply NonNarrowing_refl | apply (wf_value native), wf_assign_T | assumption].
    rewrite value_assign_T, static_cast_idem.
    destruct (add_sub_core T _ _ s Hb Hv Hu A) as (s' & -> & Hs').
    cbn. f_equal. apply assign_T_eq; [assumption|].
    now rewrite static_cast_idem.
Qed.

Lemma X20_compound_assignment_from_Int_witness :
  let x : Int uint8_t std.big := Int_from std.little 200 in
  let y : Int uint8_t std.big := Int_from std.little 100 in
  operator_sub_assign_Int std.little (Int_from std.little 44) y = Some x.
Proof.
  intros x y.
  destruct (X20_compound_assignment_from_Int std.little uint8_t std.big x y)
    as (_ & H).
  - in_range_solve.
  - in_range_solve.
  - apply H; [discriminate | vm_compute; reflexivity].
Defined.

(** X21. Construction with parentheses is the permissive path: from a
    plain [u] of any type [U] it always builds, the object holds
    [static_cast<T>(u)] and its storage is a value of [T]; that is the
    value [narrow_cast<T>] gives for an [Int<U, E2>] holding [u], and it
    is [u] itself whenever [u] is representable in [T]. *)
Theorem X21_paren_construction
    (native : endian) (T U : ityp) (E E2 : endian) (u : Z) :
  in_range U u ->
  exists r : Int T E,
    paren_init native U u = compiles r
    /\ wf r
    /\ value native r = static_cast T u
    /\ value native r
       = value native (projT2 (narrow_cast_Int native T (Int_from native u : Int U E2)))
    /\ (in_range T u -> value native r = u).
Proof.
  intros Hu. exists (Int_from native (static_cast T u)).
  split; [reflexivity|].
  split; [apply wf_Int_from, static_cast_in_range|].
  assert (V : value native (Int_from native (static_cast T u) : Int T E)
              = static_cast T u) by apply value_Int_from, static_cast_in_range.
  split; [exact V|]. split.
  - rewrite V.
    destruct (value_narrow_cast_Int native U T E2 (Int_from native u)
                (wf_Int_from native u Hu)) as [-> _].
    now rewrite value_Int_from.
  - intros Ht. rewrite V. now apply static_cast_id.
Qed.

Lemma X21_paren_construction_witness :
  exists r : Int uint16_t std.big,
    paren_init std.little uint32_t 0x12345678 = compiles r
    /\ value std.little r = 0x5678.
Proof.
  destruct (X21_paren_construction std.little uint16_t uint32_t std.big std.little
              0x12345678) as (r & H1 & _ & H2 & _).
  - in_range_solve.
  - exists r. split; [exact H1|]. rewrite H2. reflexivity.
Defined.

Lemma value_operator_compl (native : endian) {T E} (x : Int T E) :
  wf x -> value native (operator_compl x) = static_cast T (Z.lnot (value native x)).
Proof.
  intros Hx. pose proof (wf_value native x Hx) as Hv. unfold wf in Hx.
  rewrite <- static_cast_compl by assumption.
  unfold operator_compl, narrow_cast, value, _get. cbn.
  destruct (endian_eqb E native); [reflexivity|].
  now apply byteswap_compl.
Qed.

Section TagIndependence.
Variable native : endian.
Context {T : ityp} {E : endian}.
Variable E' : endian.

(** An update that stores a function of the logical value commutes with
    the order cast. *)
Lemma assign_T_endian_cast (x : Int T E) (g : Z -> option Z) :
  wf x ->
  option_map (fun s => assign_T native (endian_cast native E' x) s)
             (g (value native (endian_cast native E' x)))
  = option_map (endian_cast native E')
               (option_map (fun s => assign_T native x s) (g (value native x))).
Proof.
  intros Hx. unfold endian_cast. rewrite value_reorder by assumption.
  destruct (g (value native x)) as [s|]; cbn; [|reflexivity].
  f_equal. apply (value_inj native); auto using wf_assign_T, wf_reorder.
  now rewrite value_reorder, !value_assign_T by apply wf_assign_T.
Qed.

End TagIndependence.

(** X22. The byte order never shows in the arithmetic: each of [++],
    [--], [+=], [-=], [*=], [/=], [%=], [<<=], [>>=] and [~] applied to
    [endian_cast<E'>(x)] is defined exactly when it is defined on [x], and
    gives the [endian_cast<E'>] of what it gives on [x]. *)
Theorem X22_operations_independent_of_order
    (native : endian) (T U : ityp) (E E' : endian) (x : Int T E) (u : Z) :
  wf x ->
  operator_preinc native (endian_cast native E' x)
    = option_map (endian_cast native E') (operator_preinc native x)
  /\ operator_predec native (endian_cast native E' x)
    = option_map (endian_cast native E') (operator_predec native x)
  /\ operator_add_assign native U (endian_cast native E' x) u
    = option_map (endian_cast native E') (operator_add_assign native U x u)
  /\ operator_sub_assign native U (endian_cast native E' x) u
    = option_map (endian_cast native E') (operator_sub_assign native U x u)
  /\ operator_mul_assign native U (endian_cast native E' x) u
    = option_map (endian_cast native E') (operator_mul_assign native U x u)
  /\ operator_div_assign native U (endian_cast native E' x) u
    = option_map (endian_cast native E') (operator_div_assign native U x u)
  /\ operator_rem_assign native U (endian_cast native E' x) u
    = option_map (endian_cast native E') (operator_rem_assign native U x u)
  /\ operator_shl_assign native (endian_cast native E' x) u
    = option_map (endian_cast native E') (operator_shl_assign native x u)
  /\ operator_shr_assign native (endian_cast native E' x) u
    = option_map (endian_cast native E') (operator_shr_assign native x u)
  /\ operator_compl (endian_cast native E' x)
    = endian_cast native E' (operator_compl x).
Proof.
  intros Hx.
  assert (G : forall (g : Z -> option Z) (k : Z -> Z),
    option_map (fun s => assign_T native (endian_cast native E' x) (k s))
               (g (value native (endian_cast native E' x)))
    = option_map (endian_cast native E')
        (option_map (fun s => assign_T native x (k s)) (g (value native x)))).
  { intros g k.
    pose proof (assign_T_endian_cast native E' x
                  (fun v => option_map k (g v)) Hx) as H.
    cbn beta in H. destruct (g (value native (endian_cast native E' x)));
      destruct (g (value native x)); cbn in *; congruence. }
  unfold operator_preinc, operator_predec, operator_add_assign,
    operator_sub_assign, operator_mul_assign, operator_div_assign,
    operator_rem_assign, operator_shl_assign, operator_shr_assign.
  repeat (split; [first
    [ apply (G (fun v => add T int32_t v 1))
    | apply (G (fun v => sub T int32_t v 1))
    | apply (G (fun v => add T U v u))
    | apply (G (fun v => sub T U v u))
    | apply (G (fun v => mul T U v u))
    | apply (G (fun v => div T U v u))
    | apply (G (fun v => rem T U v u))
    | apply (G (fun v => shl T v u))
    | apply (G (fun v => shr T v u)) ] |]).
  unfold endian_cast.
  apply (value_inj native); auto using wf_operator_compl, wf_reorder.
  rewrite value_reorder by apply wf_operator_compl.
  rewrite !value_operator_compl by auto using wf_reorder.
  now rewrite value_reorder.
Qed.

Lemma X22_operations_independent_of_order_witness :
  operator_add_assign std.little uint32_t
    (endian_cast std.little std.little (big_12345678 std.little)) 1
  = Some (Int_from std.little 0x12345679).
Proof.
  destruct (X22_operations_independent_of_order std.little uint32_t uint32_t
              std.big std.little (big_12345678 std.little) 1) as (_ & _ & H & _).
  - in_range_solve.
  - rewrite H. vm_compute. reflexivity.
Defined.
